(** * Tick-stepped chunk distribution: a model of data_transfer_simulation.py

    The Python module keeps a list of [Server] objects, each with a list of
    [Chunk] presence bits, and advances a global tick counter while one of two
    transfer strategies mutates the servers in place.  Python integers are
    modelled as [Z], lists as [list] with stdpp's lookup and [alter], object
    references as positions in [servers] (the list is never restructured
    after construction), and exceptions as an error monad. *)

From stdpp Require Import base numbers list strings option.

Local Open Scope Z_scope.

(** ** Exceptions *)

Inductive exn := ZeroDivisionError | IndexError.

Inductive result (A : Type) :=
  | Ok (a : A)
  | Raise (e : exn).
Arguments Ok {A} a.
Arguments Raise {A} e.

#[global] Instance result_ret : MRet result := λ A a, Ok a.

#[global] Instance result_bind : MBind result := λ A B k m,
  match m with
  | Ok a => k a
  | Raise e => Raise e
  end.

(** ** Data model *)

Definition NUM_CHUNKS : Z := 16.
Definition DEFAULT_SERVER_COUNT : Z := 50.

(** [Chunk.id] and [Server.id] are the fields [cid] and [sid]. *)
Record Chunk := mkChunk { cid : Z; present : bool }.

Record Server := mkServer {
  sid : Z;
  chunks : list Chunk;
  is_transmitting : bool;
  transmitting_to : option Z
}.

Record Sim := mkSim {
  num_servers : Z;
  current_tick : Z;
  servers : list Server
}.

(** One executed transfer: the assignments of lines 45-48 (naive) or
    107-110 (smart) of the source. *)
Record Transfer := mkTransfer { src : Z; tgt : Z; chunk : Z }.

(** Python's [range(n)]: empty for [n <= 0]. *)
Definition range (n : Z) : list Z := Z.of_nat <$> seq 0 (Z.to_nat n).

(** [__init__]: server 0 holds every chunk, the others hold none. *)
Definition init (n : Z) : Sim :=
  {| num_servers := n;
     current_tick := 0;
     servers :=
       (λ i, mkServer i ((λ j, mkChunk j (i =? 0)) <$> range NUM_CHUNKS)
                       false None) <$> range n |}.

(** ** Python list indexing *)

(** [l[i]]: negative indices count from the end, anything else out of
    range raises [IndexError]. *)
Definition py_index {A} (l : list A) (i : Z) : result nat :=
  let len := Z.of_nat (length l) in
  if bool_decide (0 ≤ i < len) then Ok (Z.to_nat i)
  else if bool_decide (- len ≤ i < 0) then Ok (Z.to_nat (len + i))
  else Raise IndexError.

Definition py_get {A} (l : list A) (i : Z) : result A :=
  p ← py_index l i;
  match l !! p with
  | Some x => Ok x
  | None => Raise IndexError
  end.

Definition set_present (c : Chunk) : Chunk :=
  {| cid := cid c; present := true |}.

Definition with_chunks (cs : list Chunk) (s : Server) : Server :=
  {| sid := sid s; chunks := cs;
     is_transmitting := is_transmitting s;
     transmitting_to := transmitting_to s |}.

(** In-place updates of the object at position [p] of the server list. *)
Definition mark_at (p c : nat) (svs : list Server) : list Server :=
  alter (λ s, with_chunks (alter set_present c (chunks s)) s) p svs.

Definition flag_at (p : nat) (t : Z) (svs : list Server) : list Server :=
  alter (λ s, {| sid := sid s; chunks := chunks s;
                 is_transmitting := true;
                 transmitting_to := Some t |}) p svs.

(** [self.servers[t].chunks[c].present = True] *)
Definition mark_present (svs : list Server) (t c : Z) : result (list Server) :=
  tpos ← py_index svs t;
  target ← py_get svs t;
  cpos ← py_index (chunks target) c;
  Ok (mark_at tpos cpos svs).

(** [self.servers[i].is_transmitting = True;
     self.servers[i].transmitting_to = t] *)
Definition set_transmitting (svs : list Server) (i t : Z) : result (list Server) :=
  p ← py_index svs i;
  Ok (flag_at p t svs).

(** ** Naive strategy *)

(** Python's [%] and [//] are floored, as [Z.modulo] and [Z.div] are; a zero
    divisor raises instead of returning 0. *)
Definition naive_transfer (s : Sim) : result (Sim * list Transfer) :=
  let d := num_servers s - 1 in
  if d =? 0 then Raise ZeroDivisionError else
  let target_server_id := current_tick s `mod` d + 1 in
  let chunk_id := current_tick s `div` d in
  if chunk_id <? NUM_CHUNKS then
    svs1 ← mark_present (servers s) target_server_id chunk_id;
    svs2 ← set_transmitting svs1 0 target_server_id;
    Ok ({| num_servers := num_servers s;
           current_tick := current_tick s;
           servers := svs2 |},
        [mkTransfer 0 target_server_id chunk_id])
  else Ok (s, []).

(** ** Smart strategy *)

Definition has_chunks (s : Server) : bool := existsb present (chunks s).

Fixpoint count_present (cs : list Chunk) : Z :=
  match cs with
  | [] => 0
  | c :: cs' => (if present c then 1 else 0) + count_present cs'
  end.

(** The loop condition [source_chunk.present and not target_chunk.present]. *)
Definition needed (sc_tc : Chunk * Chunk) : bool :=
  present sc_tc.1 && negb (present sc_tc.2).

(** The scan over [zip(source.chunks, target.chunks)]: the index of the
    first chunk the source holds and the target lacks. *)
Fixpoint first_needed (i : nat) (scs tcs : list Chunk) : option nat :=
  match scs, tcs with
  | sc :: scs', tc :: tcs' =>
      if needed (sc, tc) then Some i
      else first_needed (S i) scs' tcs'
  | _, _ => None
  end.

Definition has_needed_chunks (source target : Server) : bool :=
  existsb needed (zip (chunks source) (chunks target)).

(** Step 1: positions of the servers that hold a chunk and are idle. *)
Fixpoint available_servers (pos : nat) (svs : list Server) : list nat :=
  match svs with
  | [] => []
  | s :: svs' =>
      if has_chunks s && negb (is_transmitting s)
      then pos :: available_servers (S pos) svs'
      else available_servers (S pos) svs'
  end.

(** Step 3: the loop over [self.servers] with its two accumulators
    [best_target] (a position) and [least_chunks]. *)
Fixpoint scan_targets (source : Server) (pos : nat) (rest : list Server)
    (best_target : option nat) (least_chunks : Z) : option nat :=
  match rest with
  | [] => best_target
  | potential_target :: rest' =>
      if bool_decide (sid potential_target = sid source)
      then scan_targets source (S pos) rest' best_target least_chunks
      else
        let target_chunk_count := count_present (chunks potential_target) in
        if has_needed_chunks source potential_target
           && (target_chunk_count <? least_chunks)
           && negb (is_transmitting potential_target)
        then scan_targets source (S pos) rest' (Some pos) target_chunk_count
        else scan_targets source (S pos) rest' best_target least_chunks
  end.

(** Steps 2-4 for one element of [available_servers]; the source and the
    target are read live from the server list, so chunks received earlier in
    the same pass count.  [if best_target:] is true for every [Server]
    object, and a position taken from the list always holds a server. *)
Definition source_step (p : nat) (svs : list Server)
    : result (list Server * list Transfer) :=
  match svs !! p with
  | None => Ok (svs, [])
  | Some source_server =>
      match scan_targets source_server 0 svs None NUM_CHUNKS with
      | None => Ok (svs, [])
      | Some q =>
          match svs !! q with
          | None => Ok (svs, [])
          | Some best_target =>
              match first_needed 0 (chunks source_server) (chunks best_target) with
              | None => Ok (svs, [])
              | Some chunk_to_send =>
                  svs1 ← mark_present svs (sid best_target) (Z.of_nat chunk_to_send);
                  svs2 ← set_transmitting svs1 (sid source_server) (sid best_target);
                  Ok (svs2, [mkTransfer (sid source_server) (sid best_target)
                                        (Z.of_nat chunk_to_send)])
              end
          end
      end
  end.

Fixpoint smart_pass (avail : list nat) (svs : list Server)
    : result (list Server * list Transfer) :=
  match avail with
  | [] => Ok (svs, [])
  | p :: avail' =>
      r ← source_step p svs;
      r' ← smart_pass avail' r.1;
      Ok (r'.1, r.2 ++ r'.2)
  end.

Definition smart_transfer (s : Sim) : result (Sim * list Transfer) :=
  r ← smart_pass (available_servers 0 (servers s)) (servers s);
  Ok ({| num_servers := num_servers s;
         current_tick := current_tick s;
         servers := r.1 |}, r.2).

(** ** Engine *)

Definition is_complete (s : Sim) : bool :=
  forallb (λ server, forallb present (chunks server)) (servers s).

Definition reset_server (s : Server) : Server :=
  {| sid := sid s; chunks := chunks s;
     is_transmitting := false; transmitting_to := None |}.

Definition strategy (algorithm : string) (s : Sim) : result (Sim * list Transfer) :=
  if String.eqb algorithm "naive" then naive_transfer s else smart_transfer s.

(** The body of the [while] loop: one tick, with the transfers it made. *)
Definition tick (algorithm : string) (s : Sim) : result (Sim * list Transfer) :=
  r ← strategy algorithm s;
  Ok ({| num_servers := num_servers r.1;
         current_tick := current_tick r.1 + 1;
         servers := reset_server <$> servers r.1 |}, r.2).

(** The [while] loop; [fuel] bounds the number of executions of its body,
    and [None] means the bound was reached. *)
Fixpoint run_loop (fuel : nat) (algorithm : string) (s : Sim)
    : option (result Sim) :=
  if is_complete s then Some (Ok s)
  else match fuel with
       | O => None
       | S fuel' =>
           match tick algorithm s with
           | Ok (s', _) => run_loop fuel' algorithm s'
           | Raise e => Some (Raise e)
           end
       end.

Definition run_simulation (fuel : nat) (algorithm : string) (s : Sim)
    : option (result Z) :=
  match run_loop fuel algorithm s with
  | Some (Ok s') => Some (Ok (current_tick s'))
  | Some (Raise e) => Some (Raise e)
  | None => None
  end.

(** ** Observations on a server list *)

(** Whether the server at position [i] holds chunk [c]; [false] outside the
    lists. *)
Definition pres (svs : list Server) (i c : nat) : bool :=
  match svs !! i with
  | Some s => match chunks s !! c with
              | Some ch => present ch
              | None => false
              end
  | None => false
  end.

Definition busy (svs : list Server) (i : nat) : bool :=
  match svs !! i with
  | Some s => is_transmitting s
  | None => false
  end.

(** The shape [__init__] builds and every tick keeps: [n] servers, ids equal
    to positions, [NUM_CHUNKS] chunk slots each. *)
Definition well_formed (n : nat) (svs : list Server) : Prop :=
  length svs = n ∧
  ∀ i s, svs !! i = Some s → sid s = Z.of_nat i ∧ length (chunks s) = 16%nat.

(** The states a run visits: the constructed one, and the one after each
    execution of the loop body. *)
Inductive reachable (algorithm : string) (n : Z) : Sim → Prop :=
  | reach_init : reachable algorithm n (init n)
  | reach_tick s s' log :
      reachable algorithm n s →
      is_complete s = false →
      tick algorithm s = Ok (s', log) →
      reachable algorithm n s'.

(** ** Invariants of the two strategies *)

(** After [t] ticks server [i >= 1] holds chunk [c] exactly when the
    round-robin has passed slot [c * (n - 1) + (i - 1)]. *)
Definition naive_inv (n : Z) (s : Sim) : Prop :=
  num_servers s = n ∧
  well_formed (Z.to_nat n) (servers s) ∧
  0 ≤ current_tick s ≤ (n - 1) * NUM_CHUNKS ∧
  ∀ i c, (i < Z.to_nat n)%nat → (c < 16)%nat →
    pres (servers s) i c =
      bool_decide (i = 0%nat ∨
                   Z.of_nat c * (n - 1) + Z.of_nat i - 1 < current_tick s).

(** What the target scan of a sender accepts, apart from the chunk count. *)
Definition eligible (source t : Server) : Prop :=
  sid t ≠ sid source ∧ has_needed_chunks source t = true ∧
  is_transmitting t = false.

(** Mid-pass states of the smart strategy: server [i] holds exactly the
    chunks below [h i], and the servers below [j] have sent this tick. *)
Definition prefix_state (n : nat) (h : nat → Z) (j : nat)
    (svs : list Server) : Prop :=
  well_formed n svs ∧
  (∀ i, (i < n)%nat → 0 ≤ h i ≤ 16) ∧
  (∀ i c, (i < n)%nat → (c < 16)%nat →
          pres svs i c = bool_decide (Z.of_nat c < h i)) ∧
  (∀ i, (i < n)%nat → busy svs i = bool_decide (i < j)%nat).

(** Seeding: servers below [m + j] hold chunk 0 and nothing else (server 0
    holds everything), the rest are empty. *)
Definition seeding (m j i : nat) : Z :=
  if decide (i = 0%nat) then 16
  else if decide (i < m + j)%nat then 1 else 0.

(** Streaming: every server holds the chunks below [k]; servers [1..j] have
    already received chunk [k] as well. *)
Definition streaming (k : Z) (j i : nat) : Z :=
  if decide (i = 0%nat) then 16
  else if decide (i ≤ j)%nat then k + 1 else k.

Definition seeding_log (m j : nat) : list Transfer :=
  (λ i, mkTransfer (Z.of_nat i) (Z.of_nat (m + i)) 0) <$> seq 0 j.

Definition streaming_log (k : Z) (j : nat) : list Transfer :=
  (λ i, mkTransfer (Z.of_nat i) (Z.of_nat (i + 1)) k) <$> seq 0 j.

(** How many chunks server [i] holds after [t] ticks among [n] servers: the
    seeded servers double each tick until all hold chunk 0, then every tick
    streams one more chunk down the chain of servers. *)
Definition smart_fill (n t : Z) (i : nat) : Z :=
  if decide (i = 0%nat) then 16
  else if decide (t < Z.log2_up n)
       then (if decide (Z.of_nat i < 2 ^ t) then 1 else 0)
       else t - Z.log2_up n + 1.

Definition smart_inv (n : Z) (s : Sim) : Prop :=
  0 ≤ current_tick s ≤ Z.log2_up n + 15 ∧
  prefix_state (Z.to_nat n) (smart_fill n (current_tick s)) 0 (servers s).

(** Presence bits are only ever gained from [svs] to [svs']. *)
Definition pres_le (svs svs' : list Server) : Prop :=
  ∀ i c, pres svs i c = true → pres svs' i c = true.

(** ** Further observations *)

(** [k] executions of the loop body, without the completion test. *)
Fixpoint iter_tick (k : nat) (algorithm : string) (s : Sim) : result Sim :=
  match k with
  | O => Ok s
  | S k' => r ← tick algorithm s; iter_tick k' algorithm r.1
  end.

(** The identities held in a server list: each server's id with the ids of
    its chunk slots, in order. *)
Definition shape (svs : list Server) : list (Z * list Z) :=
  (λ sv, (sid sv, cid <$> chunks sv)) <$> svs.

(** The number of presence bits set in a server list. *)
Fixpoint total_present (svs : list Server) : Z :=
  match svs with
  | [] => 0
  | sv :: svs' => count_present (chunks sv) + total_present svs'
  end.

(** The transfers of tick [t] of a smart run among [n] servers. *)
Definition smart_log (n t : Z) : list Transfer :=
  if decide (t < Z.log2_up n)
  then seeding_log (Z.to_nat (2 ^ t))
         (Z.to_nat (2 ^ t) `min` (Z.to_nat n - Z.to_nat (2 ^ t)))
  else streaming_log (t - Z.log2_up n + 1) (Z.to_nat n - 1).

(** A transfer between two distinct servers of a population of [n], of a
    chunk that both hold in [svs]. *)
Definition delivered (n : nat) (svs : list Server) (tr : Transfer) : Prop :=
  ∃ p q c : nat,
    tr = mkTransfer (Z.of_nat p) (Z.of_nat q) (Z.of_nat c) ∧
    (p < n)%nat ∧ (q < n)%nat ∧ (c < 16)%nat ∧ p ≠ q ∧
    pres svs p c = true ∧ pres svs q c = true.

(** The number of chunks the server at position [i] holds. *)
Definition held (svs : list Server) (i : nat) : Z :=
  match svs !! i with
  | Some sv => count_present (chunks sv)
  | None => 0
  end.

(** Server [i] can receive from the sender [p]: another server, idle, that
    lacks a chunk [p] holds. *)
Definition candidate (svs : list Server) (p i : nat) : Prop :=
  i ≠ p ∧ busy svs i = false ∧
  ∃ c, pres svs p c = true ∧ pres svs i c = false ∧
       (c < 16)%nat ∧ (i < length svs)%nat.

(** Three servers, the second of which already holds chunks 0 and 1. *)
Definition uneven_state : Sim :=
  {| num_servers := 3; current_tick := 0;
     servers := mark_at 1 1 (mark_at 1 0 (servers (init 3))) |}.

(** * Basic facts *)

Section indexing.
Context {A : Type}.
Implicit Types l : list A.

Lemma py_index_nat l i :
  (i < length l)%nat → py_index l (Z.of_nat i) = Ok i.
Proof.
  intros Hi. unfold py_index.
  rewrite bool_decide_eq_true_2 by lia. by rewrite Nat2Z.id.
Qed.

Lemma py_get_nat l i x : l !! i = Some x → py_get l (Z.of_nat i) = Ok x.
Proof.
  intros Hx. unfold py_get.
  rewrite py_index_nat by (by eapply lookup_lt_Some). simpl. by rewrite Hx.
Qed.

Lemma py_index_empty (i : Z) : py_index (@nil A) i = Raise IndexError.
Proof.
  unfold py_index. simpl.
  rewrite !bool_decide_eq_false_2 by lia. done.
Qed.
End indexing.

Lemma mark_present_nat svs q c s :
  svs !! q = Some s → (c < length (chunks s))%nat →
  mark_present svs (Z.of_nat q) (Z.of_nat c) = Ok (mark_at q c svs).
Proof.
  intros Hq Hc. unfold mark_present.
  rewrite py_index_nat by (by eapply lookup_lt_Some). simpl.
  rewrite (py_get_nat _ _ _ Hq). simpl.
  by rewrite py_index_nat.
Qed.

Lemma set_transmitting_nat svs p t :
  (p < length svs)%nat →
  set_transmitting svs (Z.of_nat p) t = Ok (flag_at p t svs).
Proof. intros Hp. unfold set_transmitting. by rewrite py_index_nat. Qed.

Lemma set_transmitting_zero svs t :
  (0 < length svs)%nat → set_transmitting svs 0 t = Ok (flag_at 0 t svs).
Proof. exact (set_transmitting_nat svs 0%nat t). Qed.

Lemma pres_mark_at svs q c i j s :
  svs !! q = Some s → (c < length (chunks s))%nat →
  pres (mark_at q c svs) i j = pres svs i j || bool_decide (i = q ∧ j = c).
Proof.
  intros Hq Hc. unfold pres, mark_at.
  destruct (decide (i = q)) as [->|Hne].
  - rewrite list_lookup_alter_eq, Hq. simpl.
    destruct (decide (j = c)) as [->|Hne].
    + rewrite list_lookup_alter_eq.
      destruct (lookup_lt_is_Some_2 _ _ Hc) as [ch ->]. simpl.
      rewrite bool_decide_eq_true_2 by done. by rewrite orb_true_r.
    + rewrite list_lookup_alter_ne by done.
      rewrite bool_decide_eq_false_2 by (intros [? ?]; congruence). by rewrite orb_false_r.
  - rewrite list_lookup_alter_ne by done.
    rewrite bool_decide_eq_false_2 by (intros [? ?]; congruence). by rewrite orb_false_r.
Qed.

Lemma pres_mark_at_mono svs q c i j :
  pres svs i j = true → pres (mark_at q c svs) i j = true.
Proof.
  unfold pres, mark_at.
  destruct (decide (i = q)) as [->|Hne].
  - rewrite list_lookup_alter_eq. destruct (svs !! q) as [s|]; [simpl|done].
    destruct (decide (j = c)) as [->|Hne].
    + rewrite list_lookup_alter_eq. by destruct (chunks s !! c).
    + by rewrite list_lookup_alter_ne.
  - by rewrite list_lookup_alter_ne.
Qed.

Lemma busy_mark_at svs q c i : busy (mark_at q c svs) i = busy svs i.
Proof.
  unfold busy, mark_at.
  destruct (decide (i = q)) as [->|Hne].
  - rewrite list_lookup_alter_eq. by destruct (svs !! q).
  - by rewrite list_lookup_alter_ne.
Qed.

Lemma pres_flag_at svs p t i j : pres (flag_at p t svs) i j = pres svs i j.
Proof.
  unfold pres, flag_at.
  destruct (decide (i = p)) as [->|Hne].
  - rewrite list_lookup_alter_eq. by destruct (svs !! p).
  - by rewrite list_lookup_alter_ne.
Qed.

Lemma busy_flag_at svs p t i :
  (p < length svs)%nat →
  busy (flag_at p t svs) i = busy svs i || bool_decide (i = p).
Proof.
  intros Hp. unfold busy, flag_at.
  destruct (decide (i = p)) as [->|Hne].
  - rewrite list_lookup_alter_eq.
    destruct (lookup_lt_is_Some_2 _ _ Hp) as [s ->]. simpl.
    rewrite bool_decide_eq_true_2 by done. by rewrite orb_true_r.
  - rewrite list_lookup_alter_ne by done.
    rewrite bool_decide_eq_false_2 by done. by rewrite orb_false_r.
Qed.

Lemma pres_reset svs i j : pres (reset_server <$> svs) i j = pres svs i j.
Proof. unfold pres. rewrite list_lookup_fmap. by destruct (svs !! i). Qed.

Lemma busy_reset svs i : busy (reset_server <$> svs) i = false.
Proof. unfold busy. rewrite list_lookup_fmap. by destruct (svs !! i). Qed.

Lemma well_formed_mark_at n svs q c :
  well_formed n svs → well_formed n (mark_at q c svs).
Proof.
  intros [Hlen Hwf]. split; [by unfold mark_at; rewrite length_alter|].
  intros i s. unfold mark_at.
  destruct (decide (i = q)) as [->|Hne].
  - rewrite list_lookup_alter_eq. destruct (svs !! q) as [s0|] eqn:Hq; [|done].
    simpl. intros [= <-]. simpl. rewrite length_alter. by apply Hwf.
  - rewrite list_lookup_alter_ne by done. apply Hwf.
Qed.

Lemma well_formed_flag_at n svs p t :
  well_formed n svs → well_formed n (flag_at p t svs).
Proof.
  intros [Hlen Hwf]. split; [by unfold flag_at; rewrite length_alter|].
  intros i s. unfold flag_at.
  destruct (decide (i = p)) as [->|Hne].
  - rewrite list_lookup_alter_eq. destruct (svs !! p) as [s0|] eqn:Hq; [|done].
    simpl. intros [= <-]. simpl. by apply Hwf.
  - rewrite list_lookup_alter_ne by done. apply Hwf.
Qed.

Lemma well_formed_reset n svs :
  well_formed n svs → well_formed n (reset_server <$> svs).
Proof.
  intros [Hlen Hwf]. split; [by rewrite length_fmap|].
  intros i s. rewrite list_lookup_fmap.
  destruct (svs !! i) as [s0|] eqn:Hq; [|done].
  simpl. intros [= <-]. simpl. by apply Hwf.
Qed.

(** ** The constructed state *)

Lemma init_lookup n i :
  (i < Z.to_nat n)%nat →
  servers (init n) !! i =
    Some (mkServer (Z.of_nat i)
            ((λ j, mkChunk j (Z.of_nat i =? 0)) <$> range NUM_CHUNKS) false None).
Proof.
  intros Hi. unfold init, range. simpl.
  rewrite !list_lookup_fmap, lookup_seq_lt by done. done.
Qed.

Lemma init_length n : length (servers (init n)) = Z.to_nat n.
Proof. unfold init, range. simpl. by rewrite !length_fmap, length_seq. Qed.

Lemma init_well_formed n : well_formed (Z.to_nat n) (servers (init n)).
Proof.
  split; [apply init_length|].
  intros i s Hs.
  assert (i < Z.to_nat n)%nat as Hi.
  { rewrite <- init_length. by eapply lookup_lt_Some. }
  rewrite init_lookup in Hs by done. injection Hs as <-. simpl.
  split; reflexivity.
Qed.

Lemma init_pres n i c :
  (i < Z.to_nat n)%nat → (c < 16)%nat →
  pres (servers (init n)) i c = bool_decide (i = 0%nat).
Proof.
  intros Hi Hc. unfold pres. rewrite init_lookup by done. cbn [chunks].
  unfold range. rewrite !list_lookup_fmap, lookup_seq_lt by (unfold NUM_CHUNKS; lia).
  cbn [fmap option_fmap option_map present]. by destruct i.
Qed.

Lemma init_busy n i : busy (servers (init n)) i = false.
Proof.
  unfold busy. destruct (decide (i < Z.to_nat n)%nat) as [Hi|Hi].
  - by rewrite init_lookup.
  - rewrite (lookup_ge_None_2 (servers (init n)) i); [done|].
    rewrite init_length. lia.
Qed.

(** ** Completion in terms of [pres] *)

Lemma is_complete_iff n s :
  well_formed n (servers s) →
  is_complete s = true ↔
  ∀ i c, (i < n)%nat → (c < 16)%nat → pres (servers s) i c = true.
Proof.
  intros [Hlen Hwf]. unfold is_complete. rewrite forallb_forall. split.
  - intros Hall i c Hi Hc. unfold pres.
    destruct (lookup_lt_is_Some_2 (servers s) i) as [sv Hsv]; [lia|].
    rewrite Hsv. destruct (Hwf _ _ Hsv) as [_ Hl].
    destruct (lookup_lt_is_Some_2 (chunks sv) c) as [ch Hch]; [lia|].
    rewrite Hch.
    assert (forallb present (chunks sv) = true) as Hsvall.
    { apply Hall, list_elem_of_In, list_elem_of_lookup. eauto. }
    rewrite forallb_forall in Hsvall.
    apply Hsvall, list_elem_of_In, list_elem_of_lookup. eauto.
  - intros Hall sv Hin.
    apply list_elem_of_In, list_elem_of_lookup in Hin as [i Hsv].
    destruct (Hwf _ _ Hsv) as [_ Hl].
    rewrite forallb_forall. intros ch Hin.
    apply list_elem_of_In, list_elem_of_lookup in Hin as [c Hch].
    specialize (Hall i c). unfold pres in Hall. rewrite Hsv, Hch in Hall.
    apply Hall.
    + rewrite <- Hlen. by eapply lookup_lt_Some.
    + rewrite <- Hl. by eapply lookup_lt_Some.
Qed.

Lemma is_complete_false n s i c :
  well_formed n (servers s) → (i < n)%nat → (c < 16)%nat →
  pres (servers s) i c = false → is_complete s = false.
Proof.
  intros Hwf Hi Hc Hp. apply not_true_iff_false. intros Hcomp.
  rewrite (is_complete_iff n) in Hcomp by done.
  rewrite Hcomp in Hp by done. done.
Qed.

(** ** The loop and its fuel *)

Lemma run_loop_fuel_mono alg fuel fuel' s r :
  run_loop fuel alg s = Some r → (fuel ≤ fuel')%nat →
  run_loop fuel' alg s = Some r.
Proof.
  revert fuel' s. induction fuel as [|fuel IH]; intros fuel' s Hrun Hle.
  - simpl in Hrun. destruct (is_complete s) eqn:Hc; [|done].
    destruct fuel'; simpl; by rewrite Hc.
  - destruct fuel' as [|fuel']; [lia|]. simpl in *.
    destruct (is_complete s); [done|].
    destruct (tick alg s) as [[s' log]|e]; [|done].
    apply IH; [done|lia].
Qed.

Lemma run_simulation_fuel_mono alg fuel fuel' s r :
  run_simulation fuel alg s = Some r → (fuel ≤ fuel')%nat →
  run_simulation fuel' alg s = Some r.
Proof.
  unfold run_simulation. intros Hrun Hle.
  destruct (run_loop fuel alg s) as [r0|] eqn:Hloop; [|done].
  by rewrite (run_loop_fuel_mono _ _ _ _ _ Hloop Hle).
Qed.

(** * The naive strategy *)

Lemma naive_slot_unique d t i c :
  0 < d → 0 ≤ t → 1 ≤ i ≤ d →
  c * d + i - 1 = t ↔ i = t `mod` d + 1 ∧ c = t `div` d.
Proof.
  intros Hd Ht Hi.
  pose proof (Z.div_mod t d ltac:(lia)) as Hdm.
  pose proof (Z.mod_pos_bound t d Hd) as Hm.
  split.
  - intros Heq.
    assert (c = t `div` d) as ->.
    { apply (Z.div_unique t d c (i - 1)); lia. }
    split; [lia|done].
  - intros [-> ->]. lia.
Qed.


Section naive.
Variable n : Z.
Hypothesis Hn : 2 ≤ n.

Lemma naive_target_range t : 0 ≤ t → 1 ≤ t `mod` (n - 1) + 1 ≤ n - 1.
Proof. intros Ht. pose proof (Z.mod_pos_bound t (n - 1)). lia. Qed.

Lemma naive_transfer_ok s :
  num_servers s = n → well_formed (Z.to_nat n) (servers s) →
  0 ≤ current_tick s →
  current_tick s `div` (n - 1) < NUM_CHUNKS →
  naive_transfer s =
    Ok ({| num_servers := n;
           current_tick := current_tick s;
           servers :=
             flag_at 0 (current_tick s `mod` (n - 1) + 1)
               (mark_at (Z.to_nat (current_tick s `mod` (n - 1) + 1))
                        (Z.to_nat (current_tick s `div` (n - 1)))
                        (servers s)) |},
        [mkTransfer 0 (current_tick s `mod` (n - 1) + 1)
                      (current_tick s `div` (n - 1))]).
Proof.
  intros Hns [Hlen Hwf] Ht Hchunk.
  pose proof (naive_target_range _ Ht) as Htgt.
  assert (0 ≤ current_tick s `div` (n - 1)) as Hc0
    by (apply Z.div_pos; lia).
  unfold naive_transfer. rewrite Hns.
  destruct (Z.eqb_spec (n - 1) 0) as [?|_]; [lia|].
  rewrite (proj2 (Z.ltb_lt _ _) Hchunk).
  set (target := current_tick s `mod` (n - 1) + 1) in *.
  set (chunk_id := current_tick s `div` (n - 1)) in *.
  destruct (lookup_lt_is_Some_2 (servers s) (Z.to_nat target)) as [sv Hsv];
    [lia|].
  destruct (Hwf _ _ Hsv) as [_ Hl].
  rewrite <- (Z2Nat.id target) at 1 by lia.
  rewrite <- (Z2Nat.id chunk_id) at 1 by lia.
  rewrite (mark_present_nat _ _ _ _ Hsv) by (unfold NUM_CHUNKS in *; lia).
  simpl.
  rewrite set_transmitting_zero
    by (unfold mark_at; rewrite length_alter; lia).
  simpl. done.
Qed.

Lemma naive_transfer_idle s :
  num_servers s = n → NUM_CHUNKS ≤ current_tick s `div` (n - 1) →
  naive_transfer s = Ok (s, []).
Proof.
  intros Hns Hchunk. unfold naive_transfer. rewrite Hns.
  destruct (Z.eqb_spec (n - 1) 0) as [?|_]; [lia|].
  by rewrite (proj2 (Z.ltb_ge _ _) Hchunk).
Qed.


Lemma naive_inv_init : naive_inv n (init n).
Proof.
  split; [done|]. split; [apply init_well_formed|].
  split; [simpl; unfold NUM_CHUNKS; lia|].
  intros i c Hi Hc. rewrite init_pres by done. simpl.
  apply bool_decide_ext. split; [auto|]. intros [?|?]; [done|nia].
Qed.

Lemma naive_inv_complete s :
  naive_inv n s →
  is_complete s = bool_decide (current_tick s = (n - 1) * NUM_CHUNKS).
Proof.
  intros (Hns & Hwf & Ht & Hpres). unfold NUM_CHUNKS in *.
  case_bool_decide as Hfin.
  - apply (is_complete_iff _ _ Hwf). intros i c Hi Hc.
    rewrite Hpres by done. apply bool_decide_eq_true_2.
    destruct i; [by left|right]. nia.
  - apply (is_complete_false (Z.to_nat n) s (Z.to_nat (n - 1)) 15 Hwf);
      [lia|lia|].
    rewrite Hpres by lia. apply bool_decide_eq_false_2.
    intros [?|?]; lia.
Qed.

Lemma naive_inv_tick s :
  naive_inv n s → is_complete s = false →
  ∃ s' log, tick "naive" s = Ok (s', log) ∧ naive_inv n s' ∧
            current_tick s' = current_tick s + 1 ∧
            log = [mkTransfer 0 (current_tick s `mod` (n - 1) + 1)
                                (current_tick s `div` (n - 1))].
Proof.
  intros Hinv Hcomp. rewrite (naive_inv_complete _ Hinv) in Hcomp.
  apply bool_decide_eq_false_1 in Hcomp.
  destruct Hinv as (Hns & Hwf & Ht & Hpres).
  assert (current_tick s `div` (n - 1) < NUM_CHUNKS) as Hchunk.
  { apply Z.div_lt_upper_bound; lia. }
  assert (0 ≤ current_tick s `div` (n - 1)) as Hc0
    by (apply Z.div_pos; lia).
  pose proof (naive_target_range (current_tick s) ltac:(lia)) as Htgt.
  pose proof (Z.div_mod (current_tick s) (n - 1) ltac:(lia)) as Hdm.
  unfold tick, strategy. simpl.
  rewrite (naive_transfer_ok s Hns Hwf) by (done || lia). simpl.
  eexists _, _. split; [done|]. split; [|done].
  split; [done|]. simpl. split.
  { by apply well_formed_reset, well_formed_flag_at, well_formed_mark_at. }
  split; [lia|].
  intros i c Hi Hc. rewrite pres_reset, pres_flag_at.
  destruct Hwf as [Hlen Hwf].
  destruct (lookup_lt_is_Some_2 (servers s)
              (Z.to_nat (current_tick s `mod` (n - 1) + 1))) as [sv Hsv];
    [lia|].
  destruct (Hwf _ _ Hsv) as [_ Hl].
  rewrite (pres_mark_at _ _ _ _ _ _ Hsv) by (unfold NUM_CHUNKS in *; lia).
  rewrite Hpres by done.
  apply eq_bool_prop_intro. rewrite orb_True, !bool_decide_spec.
  destruct (decide (i = 0%nat)) as [->|Hi0]; [by intuition|].
  pose proof (naive_slot_unique (n - 1) (current_tick s)
                (Z.of_nat i) (Z.of_nat c)) as Hslot.
  lia.
Qed.

Lemma naive_run fuel s :
  naive_inv n s →
  (Z.to_nat ((n - 1) * NUM_CHUNKS - current_tick s) ≤ fuel)%nat →
  ∃ s', run_loop fuel "naive" s = Some (Ok s') ∧
        current_tick s' = (n - 1) * NUM_CHUNKS.
Proof.
  revert s. induction fuel as [|fuel IH]; intros s Hinv Hfuel.
  - exists s. simpl. rewrite (naive_inv_complete _ Hinv).
    destruct Hinv as (_ & _ & Ht & _).
    rewrite bool_decide_eq_true_2 by lia. split; [done|lia].
  - simpl. destruct (is_complete s) eqn:Hcomp.
    + exists s. split; [done|].
      rewrite (naive_inv_complete _ Hinv) in Hcomp.
      by apply bool_decide_eq_true_1 in Hcomp.
    + destruct (naive_inv_tick _ Hinv Hcomp)
        as (s' & log & -> & Hinv' & Ht' & _).
      apply IH; [done|lia].
Qed.

Lemma naive_reachable s : reachable "naive" n s → naive_inv n s.
Proof.
  induction 1 as [|s s' log _ IH Hcomp Htick]; [apply naive_inv_init|].
  destruct (naive_inv_tick _ IH Hcomp) as (s'' & log' & Htick' & Hinv' & _).
  congruence.
Qed.
End naive.

Lemma naive_transfer_log s s' log :
  naive_transfer s = Ok (s', log) → (length log ≤ 1)%nat.
Proof.
  unfold naive_transfer.
  destruct (_ =? 0); [done|]. destruct (_ <? _).
  - destruct (mark_present _ _ _) as [svs1|]; [simpl|done].
    destruct (set_transmitting _ _ _) as [svs2|]; [simpl|done].
    intros [= <- <-]. simpl. lia.
  - intros [= <- <-]. simpl. lia.
Qed.

(** * The smart strategy *)

(** ** Chunk lists that hold a prefix of the chunk ids *)

Lemma has_needed_first_needed i scs tcs :
  existsb needed (zip scs tcs) = bool_decide (is_Some (first_needed i scs tcs)).
Proof.
  assert (bool_decide (is_Some (@None nat)) = false) as Hnone.
  { apply bool_decide_eq_false_2. by intros [? ?]. }
  revert i tcs. induction scs as [|sc scs IH]; intros i [|tc tcs]; simpl;
    [done..|].
  destruct (needed (sc, tc)); simpl.
  - done.
  - apply IH.
Qed.

Lemma count_present_below cs off h :
  (∀ c ch, cs !! c = Some ch →
           present ch = bool_decide (off + Z.of_nat c < h)) →
  count_present cs = 0 `max` (Z.of_nat (length cs) `min` (h - off)).
Proof.
  revert off. induction cs as [|ch cs IH]; intros off Hcs; simpl; [lia|].
  rewrite (IH (off + 1)).
  - rewrite (Hcs 0%nat ch eq_refl). case_bool_decide; lia.
  - intros c ch' Hc. rewrite (Hcs (S c) ch' Hc).
    apply bool_decide_ext. lia.
Qed.

Lemma first_needed_below i scs tcs hs ht :
  length scs = length tcs →
  (∀ c ch, scs !! c = Some ch →
           present ch = bool_decide (Z.of_nat (i + c) < hs)) →
  (∀ c ch, tcs !! c = Some ch →
           present ch = bool_decide (Z.of_nat (i + c) < ht)) →
  first_needed i scs tcs =
    if bool_decide (Z.of_nat i `max` ht < hs ∧
                    Z.of_nat i `max` ht < Z.of_nat (i + length scs))
    then Some (Z.to_nat (Z.of_nat i `max` ht)) else None.
Proof.
  revert i tcs. induction scs as [|sc scs IH]; intros i [|tc tcs] Hlen Hs Ht;
    simpl in *; try done.
  { rewrite bool_decide_eq_false_2 by lia. done. }
  unfold needed. simpl.
  rewrite (Hs 0%nat sc eq_refl), (Ht 0%nat tc eq_refl).
  replace (i + 0)%nat with i by lia.
  do 2 case_bool_decide; simpl.
  - rewrite (IH (S i) tcs); [|lia|..].
    + repeat case_bool_decide; first [done | lia | f_equal; lia].
    + intros c ch Hc. rewrite (Hs (S c) ch Hc). apply bool_decide_ext. lia.
    + intros c ch Hc. rewrite (Ht (S c) ch Hc). apply bool_decide_ext. lia.
  - rewrite bool_decide_eq_true_2 by lia. f_equal. lia.
  - rewrite (IH (S i) tcs); [|lia|..].
    + repeat case_bool_decide; first [done | lia | f_equal; lia].
    + intros c ch Hc. rewrite (Hs (S c) ch Hc). apply bool_decide_ext. lia.
    + intros c ch Hc. rewrite (Ht (S c) ch Hc). apply bool_decide_ext. lia.
  - rewrite (IH (S i) tcs); [|lia|..].
    + repeat case_bool_decide; first [done | lia | f_equal; lia].
    + intros c ch Hc. rewrite (Hs (S c) ch Hc). apply bool_decide_ext. lia.
    + intros c ch Hc. rewrite (Ht (S c) ch Hc). apply bool_decide_ext. lia.
Qed.

(** ** The target scan picks the first minimum *)


Lemma scan_targets_keep source pos rest best least :
  (∀ t, t ∈ rest → eligible source t → least ≤ count_present (chunks t)) →
  scan_targets source pos rest best least = best.
Proof.
  revert pos. induction rest as [|t rest IH]; intros pos Hrest; simpl; [done|].
  assert (∀ t', t' ∈ rest → eligible source t' →
                least ≤ count_present (chunks t')) as Hrest'.
  { intros t' Hin. apply Hrest. by right. }
  case_bool_decide as Hid; [by apply IH|].
  destruct (has_needed_chunks source t) eqn:Hneed; simpl; [|by apply IH].
  destruct (Z.ltb_spec (count_present (chunks t)) least) as [Hlt|_]; simpl;
    [|by apply IH].
  destruct (is_transmitting t) eqn:Htx; simpl; [by apply IH|].
  specialize (Hrest t ltac:(by left) ltac:(done)). lia.
Qed.

Lemma scan_targets_first_min source pos rest best least q t :
  rest !! q = Some t → eligible source t →
  count_present (chunks t) < least →
  (∀ i t', rest !! i = Some t' → eligible source t' → (i < q)%nat →
           count_present (chunks t) < count_present (chunks t')) →
  (∀ i t', rest !! i = Some t' → eligible source t' → (q < i)%nat →
           count_present (chunks t) ≤ count_present (chunks t')) →
  scan_targets source pos rest best least = Some (pos + q)%nat.
Proof.
  revert pos best least q.
  induction rest as [|t0 rest IH]; intros pos best least q Hq Hel Hlt Hbefore Hafter;
    [done|].
  destruct q as [|q]; simpl in *.
  - injection Hq as ->. destruct Hel as (Hid & Hneed & Htx).
    rewrite bool_decide_eq_false_2 by done.
    rewrite Hneed, Htx, (proj2 (Z.ltb_lt _ _) Hlt). simpl.
    rewrite scan_targets_keep; [f_equal; lia|].
    intros t' Hin Hel'. apply list_elem_of_lookup in Hin as [i Hi].
    apply (Hafter (S i) t' Hi Hel'). lia.
  - assert (∀ i t', rest !! i = Some t' → eligible source t' → (i < q)%nat →
              count_present (chunks t) < count_present (chunks t')) as Hbefore'.
    { intros i t' Hi Hel' Hiq. apply (Hbefore (S i) t' Hi Hel'). lia. }
    assert (∀ i t', rest !! i = Some t' → eligible source t' → (q < i)%nat →
              count_present (chunks t) ≤ count_present (chunks t')) as Hafter'.
    { intros i t' Hi Hel' Hiq. apply (Hafter (S i) t' Hi Hel'). lia. }
    replace (pos + S q)%nat with (S pos + q)%nat by lia.
    case_bool_decide as Hid; [by apply (IH (S pos))|].
    destruct (has_needed_chunks source t0) eqn:Hneed; simpl;
      [|by apply (IH (S pos))].
    destruct (Z.ltb_spec (count_present (chunks t0)) least) as [Hlt0|_]; simpl;
      [|by apply (IH (S pos))].
    destruct (is_transmitting t0) eqn:Htx; simpl; [by apply (IH (S pos))|].
    apply (IH (S pos)); try done.
    apply (Hbefore 0%nat t0 eq_refl); [done|lia].
Qed.

(** ** One sender's turn on prefix states *)


Section prefix_states.
Context {n : nat} {h : nat → Z} {j : nat} {svs : list Server}.
Hypothesis Hst : prefix_state n h j svs.

Lemma prefix_state_lookup i s :
  svs !! i = Some s →
  (i < n)%nat ∧ sid s = Z.of_nat i ∧ length (chunks s) = 16%nat ∧
  0 ≤ h i ≤ 16 ∧ is_transmitting s = bool_decide (i < j)%nat ∧
  ∀ c ch, chunks s !! c = Some ch →
          present ch = bool_decide (Z.of_nat c < h i).
Proof.
  destruct Hst as ([Hlen Hwf] & Hh & Hpres & Hbusy). intros Hs.
  assert (i < n)%nat as Hi by (rewrite <- Hlen; by eapply lookup_lt_Some).
  destruct (Hwf _ _ Hs) as [Hid Hl].
  repeat split; try done; try (by apply Hh).
  - specialize (Hbusy i Hi). unfold busy in Hbusy. by rewrite Hs in Hbusy.
  - intros c ch Hch.
    assert (c < 16)%nat as Hc by (rewrite <- Hl; by eapply lookup_lt_Some).
    specialize (Hpres i c Hi Hc). unfold pres in Hpres.
    by rewrite Hs, Hch in Hpres.
Qed.

Lemma prefix_state_count i s :
  svs !! i = Some s → count_present (chunks s) = h i.
Proof.
  intros Hs.
  destruct (prefix_state_lookup _ _ Hs) as (_ & _ & Hl & Hh & _ & Hch).
  rewrite (count_present_below _ 0 (h i)).
  - rewrite Hl. lia.
  - intros c ch Hc. rewrite (Hch _ _ Hc). apply bool_decide_ext. lia.
Qed.

Lemma prefix_state_first_needed p sp i si :
  svs !! p = Some sp → svs !! i = Some si →
  first_needed 0 (chunks sp) (chunks si) =
    if bool_decide (h i < h p) then Some (Z.to_nat (h i)) else None.
Proof.
  intros Hp Hi.
  destruct (prefix_state_lookup _ _ Hp) as (_ & _ & Hlp & Hhp & _ & Hchp).
  destruct (prefix_state_lookup _ _ Hi) as (_ & _ & Hli & Hhi & _ & Hchi).
  rewrite (first_needed_below 0 _ _ (h p) (h i)); [|congruence|done..].
  rewrite Hlp. repeat case_bool_decide; first [done | lia | f_equal; lia].
Qed.

Lemma prefix_state_eligible p sp i si :
  svs !! p = Some sp → svs !! i = Some si →
  eligible sp si ↔ i ≠ p ∧ h i < h p ∧ (j ≤ i)%nat.
Proof.
  intros Hp Hi. unfold eligible, has_needed_chunks.
  rewrite (has_needed_first_needed 0),
    (prefix_state_first_needed _ _ _ _ Hp Hi).
  destruct (prefix_state_lookup _ _ Hp) as (_ & -> & _).
  destruct (prefix_state_lookup _ _ Hi) as (_ & -> & _ & _ & -> & _).
  rewrite bool_decide_eq_true, bool_decide_eq_false.
  case_bool_decide; split.
  - intros (? & ? & ?). lia.
  - intros (? & ? & ?). repeat split; [lia|eauto|lia].
  - intros (_ & [? [=]] & _).
  - intros (? & ? & ?). lia.
Qed.

(** The sender at position [p] finds the first least-filled server that
    needs one of its chunks and has not sent, and sends its first missing
    chunk. *)
Lemma source_step_send p q :
  (p < n)%nat → (q < n)%nat → q ≠ p → (j ≤ q)%nat → h q < h p →
  (∀ i, (i < n)%nat → i ≠ p → (j ≤ i)%nat → h i < h p →
        ((i < q)%nat → h q < h i) ∧ ((q < i)%nat → h q ≤ h i)) →
  source_step p svs =
    Ok (flag_at p (Z.of_nat q) (mark_at q (Z.to_nat (h q)) svs),
        [mkTransfer (Z.of_nat p) (Z.of_nat q) (h q)]).
Proof.
  intros Hp Hq Hqp Hjq Hhq Hmin.
  pose proof Hst as ([Hlen Hwf] & _).
  destruct (lookup_lt_is_Some_2 svs p) as [sp Hsp]; [lia|].
  destruct (lookup_lt_is_Some_2 svs q) as [sq Hsq]; [lia|].
  destruct (prefix_state_lookup _ _ Hsp) as (_ & Hidp & _ & Hhp & _).
  destruct (prefix_state_lookup _ _ Hsq) as (_ & Hidq & Hlq & Hhq0 & _).
  unfold source_step. rewrite Hsp.
  rewrite (scan_targets_first_min sp 0 svs None NUM_CHUNKS q sq Hsq).
  - simpl. rewrite Hsq, (prefix_state_first_needed _ _ _ _ Hsp Hsq).
    rewrite bool_decide_eq_true_2 by done.
    rewrite Hidq, Hidp.
    rewrite (mark_present_nat _ _ _ _ Hsq) by lia. simpl.
    rewrite set_transmitting_nat
      by (unfold mark_at; rewrite length_alter; lia).
    simpl. by rewrite Z2Nat.id by lia.
  - apply (prefix_state_eligible _ _ _ _ Hsp Hsq). done.
  - rewrite (prefix_state_count _ _ Hsq). unfold NUM_CHUNKS. lia.
  - intros i t' Hi Hel Hiq.
    rewrite (prefix_state_count _ _ Hsq), (prefix_state_count _ _ Hi).
    apply (prefix_state_eligible _ _ _ _ Hsp Hi) in Hel as (? & ? & ?).
    apply Hmin; try done. lia.
  - intros i t' Hi Hel Hiq.
    rewrite (prefix_state_count _ _ Hsq), (prefix_state_count _ _ Hi).
    apply (prefix_state_eligible _ _ _ _ Hsp Hi) in Hel as (? & ? & ?).
    apply Hmin; try done.
    destruct (prefix_state_lookup _ _ Hi) as (? & _). done.
Qed.

(** A sender none of whose chunks is missing at an idle peer stays idle. *)
Lemma source_step_none p :
  (p < n)%nat →
  (∀ i, (i < n)%nat → i ≠ p → (j ≤ i)%nat → h p ≤ h i) →
  source_step p svs = Ok (svs, []).
Proof.
  intros Hp Hnone.
  pose proof Hst as ([Hlen Hwf] & _).
  destruct (lookup_lt_is_Some_2 svs p) as [sp Hsp]; [lia|].
  unfold source_step. rewrite Hsp.
  rewrite scan_targets_keep; [done|].
  intros t Hin Hel. apply list_elem_of_lookup in Hin as [i Hi].
  apply (prefix_state_eligible _ _ _ _ Hsp Hi) in Hel as (? & ? & ?).
  destruct (prefix_state_lookup _ _ Hi) as (? & _).
  specialize (Hnone i). lia.
Qed.

Lemma prefix_state_send q t :
  (q < n)%nat → (j < n)%nat → h q < 16 →
  prefix_state n (λ i, if decide (i = q) then h q + 1 else h i) (S j)
    (flag_at j t (mark_at q (Z.to_nat (h q)) svs)).
Proof.
  intros Hq Hj Hhq.
  pose proof Hst as (Hwf & Hh & Hpres & Hbusy).
  destruct (lookup_lt_is_Some_2 svs q) as [sq Hsq];
    [destruct Hwf; lia|].
  destruct (prefix_state_lookup _ _ Hsq) as (_ & _ & Hlq & Hhq0 & _).
  split; [by apply well_formed_flag_at, well_formed_mark_at|].
  split; [intros i Hi; specialize (Hh i Hi); case_decide; lia|].
  split.
  - intros i c Hi Hc. rewrite pres_flag_at.
    rewrite (pres_mark_at _ _ _ _ _ _ Hsq) by lia.
    rewrite Hpres by done.
    apply eq_bool_prop_intro. rewrite orb_True, !bool_decide_spec.
    case_decide; [subst i|]; lia.
  - intros i Hi. rewrite busy_flag_at
      by (unfold mark_at; rewrite length_alter; destruct Hwf; lia).
    rewrite busy_mark_at, Hbusy by done.
    apply eq_bool_prop_intro. rewrite orb_True, !bool_decide_spec. lia.
Qed.

Lemma prefix_state_ext h' :
  (∀ i, (i < n)%nat → h' i = h i) → prefix_state n h' j svs.
Proof.
  intros Hext. destruct Hst as (Hwf & Hh & Hpres & Hbusy).
  split; [done|]. split; [intros i Hi; rewrite Hext by done; auto|].
  split; [|done]. intros i c Hi Hc. rewrite Hext by done. auto.
Qed.
End prefix_states.

Lemma prefix_state_reset n h j svs :
  prefix_state n h j svs → prefix_state n h 0 (reset_server <$> svs).
Proof.
  intros (Hwf & Hh & Hpres & Hbusy).
  split; [by apply well_formed_reset|]. split; [done|]. split.
  - intros i c Hi Hc. rewrite pres_reset. auto.
  - intros i Hi. rewrite busy_reset.
    symmetry. apply bool_decide_eq_false_2. lia.
Qed.

(** ** Step 1 on prefix states *)

Lemma has_chunks_count cs :
  0 ≤ count_present cs ∧
  existsb present cs = bool_decide (0 < count_present cs).
Proof.
  induction cs as [|c cs [IH0 IH]]; simpl; [done|].
  destruct (present c); simpl.
  - split; [lia|]. symmetry. apply bool_decide_eq_true_2. lia.
  - done.
Qed.

Lemma available_servers_seq svs pos m :
  (∀ i s, svs !! i = Some s →
          has_chunks s && negb (is_transmitting s)
          = bool_decide (pos + i < m)%nat) →
  available_servers pos svs = seq pos (length svs `min` (m - pos)).
Proof.
  revert pos. induction svs as [|s svs IH]; intros pos Hsvs; simpl; [done|].
  rewrite (Hsvs 0%nat s eq_refl), IH.
  - case_bool_decide.
    + replace (m - pos)%nat with (S (m - S pos)) by lia. done.
    + replace (m - pos)%nat with 0%nat by lia.
      replace (m - S pos)%nat with 0%nat by lia.
      by rewrite Nat.min_0_r.
  - intros i s' Hi. rewrite (Hsvs (S i) s' Hi). apply bool_decide_ext. lia.
Qed.

Lemma prefix_state_available n h svs m :
  prefix_state n h 0 svs → (m ≤ n)%nat →
  (∀ i, (i < n)%nat → 0 < h i ↔ (i < m)%nat) →
  available_servers 0 svs = seq 0 m.
Proof.
  intros Hst Hm Hh. rewrite (available_servers_seq _ _ m).
  - destruct Hst as ([-> _] & _). f_equal. lia.
  - intros i s Hs.
    destruct (prefix_state_lookup Hst _ _ Hs) as (Hi & _ & _ & _ & -> & _).
    unfold has_chunks.
    rewrite (proj2 (has_chunks_count _)), (prefix_state_count Hst _ _ Hs).
    apply eq_bool_prop_intro.
    rewrite andb_True, negb_True, !bool_decide_spec.
    specialize (Hh i Hi). lia.
Qed.

(** ** The two phases of a smart run *)


Section passes.
Variable n : nat.

Lemma seeding_idle m j k :
  ∀ p svs, prefix_state n (seeding m j) j svs →
    (m + j = n)%nat → (j ≤ p)%nat → (1 ≤ p)%nat → (p + k ≤ n)%nat →
    smart_pass (seq p k) svs = Ok (svs, []).
Proof.
  induction k as [|k IH]; intros p svs Hst Hmj Hjp Hp Hpk; simpl; [done|].
  rewrite (source_step_none Hst p); [simpl|lia|].
  - rewrite IH by (done || lia). done.
  - intros i Hi Hne Hji. unfold seeding. repeat case_decide; lia.
Qed.

Lemma seeding_pass m k :
  (1 ≤ m < n)%nat →
  ∀ j svs, prefix_state n (seeding m j) j svs →
    (j + k = m)%nat → (m + j ≤ n)%nat →
    ∃ svs',
      smart_pass (seq j k) svs
      = Ok (svs', drop j (seeding_log m (m `min` (n - m)))) ∧
      prefix_state n (seeding m (m `min` (n - m))) (m `min` (n - m)) svs'.
Proof.
  intros Hm. induction k as [|k IH]; intros j svs Hst Hjk Hmj.
  - exists svs. simpl. replace (m `min` (n - m))%nat with j by lia.
    split; [|done]. unfold seeding_log.
    rewrite drop_ge by (rewrite length_fmap, length_seq; lia). done.
  - destruct (decide (m + j < n)%nat) as [Hlt|Hge].
    + assert (seeding m j (m + j) = 0) as Hq.
      { unfold seeding. repeat case_decide; lia. }
      pose proof (prefix_state_send Hst (m + j) (Z.of_nat (m + j))
                    ltac:(lia) ltac:(lia) ltac:(lia)) as Hst'.
      apply (λ H, prefix_state_ext H (seeding m (S j))) in Hst'.
      2:{ intros i Hi. unfold seeding. repeat case_decide; lia. }
      destruct (IH (S j) _ Hst' ltac:(lia) ltac:(lia))
        as (svs' & Hpass & Hfin).
      exists svs'. split; [|done].
      change (seq j (S k)) with (j :: seq (S j) k).
      cbn [smart_pass].
      rewrite (source_step_send Hst j (m + j)); try lia.
      * cbn [mbind result_bind fst snd]. rewrite Hpass, Hq.
        cbn [mbind result_bind fst snd]. do 2 f_equal.
        unfold seeding_log.
        rewrite <- !fmap_drop, !drop_seq.
        replace (m `min` (n - m) - j)%nat
          with (S (m `min` (n - m) - S j)) by lia.
        simpl. do 3 f_equal; lia.
      * unfold seeding. repeat case_decide; lia.
      * intros i Hi Hne Hji Hh. unfold seeding in *.
        repeat case_decide; lia.
    + exists svs. replace (m `min` (n - m))%nat with j by lia.
      split; [|done].
      rewrite (seeding_idle m j (S k) j svs Hst) by lia.
      unfold seeding_log.
      rewrite drop_ge by (rewrite length_fmap, length_seq; lia). done.
Qed.

Lemma streaming_pass k r :
  1 ≤ k < 16 →
  ∀ j svs, prefix_state n (streaming k j) j svs →
    (j + S r = n)%nat →
    ∃ svs',
      smart_pass (seq j (S r)) svs
      = Ok (svs', drop j (streaming_log k (n - 1))) ∧
      prefix_state n (streaming k (n - 1)) (n - 1) svs'.
Proof.
  intros Hk. induction r as [|r IH]; intros j svs Hst Hjr.
  - exists svs. replace (n - 1)%nat with j by lia. split; [|done].
    simpl. rewrite (source_step_none Hst j); [simpl|lia|].
    + unfold streaming_log.
      rewrite drop_ge by (rewrite length_fmap, length_seq; lia). done.
    + intros i Hi Hne Hji. lia.
  - assert (streaming k j (j + 1) = k) as Hq.
    { unfold streaming. repeat case_decide; lia. }
    pose proof (prefix_state_send Hst (j + 1) (Z.of_nat (j + 1))
                  ltac:(lia) ltac:(lia) ltac:(lia)) as Hst'.
    apply (λ H, prefix_state_ext H (streaming k (S j))) in Hst'.
    2:{ intros i Hi. unfold streaming. repeat case_decide; lia. }
    destruct (IH (S j) _ Hst' ltac:(lia)) as (svs' & Hpass & Hfin).
    exists svs'. split; [|done].
    change (seq j (S (S r))) with (j :: seq (S j) (S r)).
    cbn [smart_pass].
    rewrite (source_step_send Hst j (j + 1)); try lia.
    + cbn [mbind result_bind fst snd]. rewrite Hpass, Hq.
      cbn [mbind result_bind fst snd]. do 2 f_equal.
      unfold streaming_log.
      rewrite <- !fmap_drop, !drop_seq.
      replace (n - 1 - j)%nat with (S (n - 1 - S j)) by lia.
      simpl. do 3 f_equal; lia.
    + unfold streaming. repeat case_decide; lia.
    + intros i Hi Hne Hji Hh. unfold streaming in *.
      repeat case_decide; lia.
Qed.
End passes.

(** ** The invariant of a smart run *)


Section smart.
Variable n : Z.
Hypothesis Hn : 2 ≤ n.

Lemma log2_up_servers_pos : 0 < Z.log2_up n.
Proof. apply Z.log2_up_pos. lia. Qed.

Lemma smart_inv_init : smart_inv n (init n).
Proof.
  pose proof log2_up_servers_pos as HL.
  split; [simpl; lia|]. change (current_tick (init n)) with 0.
  split; [apply init_well_formed|].
  split; [|split].
  - intros i Hi. unfold smart_fill. repeat case_decide; lia.
  - intros i c Hi Hc. rewrite init_pres by done.
    apply bool_decide_ext. unfold smart_fill.
    change (2 ^ 0) with 1. repeat case_decide; lia.
  - intros i Hi. rewrite init_busy.
    symmetry. apply bool_decide_eq_false_2. lia.
Qed.

Lemma smart_inv_complete s :
  smart_inv n s →
  is_complete s = bool_decide (current_tick s = Z.log2_up n + 15).
Proof.
  intros [Ht (Hwf & Hh & Hpres & Hbusy)].
  case_bool_decide as Hfin.
  - apply (is_complete_iff _ _ Hwf). intros i c Hi Hc.
    rewrite Hpres by done. apply bool_decide_eq_true_2.
    unfold smart_fill. repeat case_decide; lia.
  - apply (is_complete_false (Z.to_nat n) s 1 15 Hwf); [lia|lia|].
    rewrite Hpres by lia. apply bool_decide_eq_false_2.
    unfold smart_fill. repeat case_decide; lia.
Qed.

Lemma smart_inv_transfer s :
  smart_inv n s → is_complete s = false →
  ∃ svs' log,
    smart_transfer s
    = Ok ({| num_servers := num_servers s;
             current_tick := current_tick s;
             servers := svs' |}, log) ∧
    (∃ j, prefix_state (Z.to_nat n)
            (smart_fill n (current_tick s + 1)) j svs') ∧
    ((∃ m j, log = seeding_log m j) ∨ (∃ k j, log = streaming_log k j)).
Proof.
  intros Hinv Hcomp. rewrite (smart_inv_complete _ Hinv) in Hcomp.
  apply bool_decide_eq_false_1 in Hcomp.
  destruct Hinv as [Ht Hst]. unfold smart_transfer.
  set (t := current_tick s) in *. set (L := Z.log2_up n) in *.
  destruct (decide (t < L)) as [Hseed|Hstream].
  - assert (1 ≤ 2 ^ t < n) as HP.
    { split; [pose proof (Z.pow_pos_nonneg 2 t); lia|].
      apply Z.log2_up_lt_pow2; [lia|done]. }
    assert (2 ^ (t + 1) = 2 * 2 ^ t) as HP2
      by (rewrite Z.pow_add_r by lia; lia).
    assert (t + 1 < L ↔ 2 ^ (t + 1) < n) as HP3
      by (symmetry; apply Z.log2_up_lt_pow2; lia).
    set (m := Z.to_nat (2 ^ t)).
    apply (λ H, prefix_state_ext H (seeding m 0)) in Hst.
    2:{ intros i Hi. unfold seeding, smart_fill. fold L.
        repeat case_decide; lia. }
    rewrite (prefix_state_available _ _ _ m Hst); [|lia|].
    2:{ intros i Hi. unfold seeding. repeat case_decide; lia. }
    destruct (seeding_pass (Z.to_nat n) m m ltac:(lia) 0%nat _ Hst
                ltac:(lia) ltac:(lia)) as (svs' & -> & Hst').
    cbn [mbind result_bind fst snd]. rewrite drop_0.
    eexists _, _. split; [done|]. split; [|left; eauto].
    eexists. apply (prefix_state_ext Hst').
    intros i Hi. unfold seeding, smart_fill. fold L.
    repeat case_decide; lia.
  - set (k := t - L + 1).
    apply (λ H, prefix_state_ext H (streaming k 0)) in Hst.
    2:{ intros i Hi. unfold streaming, smart_fill. fold L.
        repeat case_decide; lia. }
    rewrite (prefix_state_available _ _ _ (Z.to_nat n) Hst); [|lia|].
    2:{ intros i Hi. unfold streaming. repeat case_decide; lia. }
    destruct (streaming_pass (Z.to_nat n) k (Z.to_nat n - 1) ltac:(lia)
                0%nat _ Hst ltac:(lia)) as (svs' & Hpass & Hst').
    replace (S (Z.to_nat n - 1)) with (Z.to_nat n) in Hpass by lia.
    rewrite Hpass.
    cbn [mbind result_bind fst snd]. rewrite drop_0.
    eexists _, _. split; [done|]. split; [|right; eauto].
    eexists. apply (prefix_state_ext Hst').
    intros i Hi. unfold streaming, smart_fill. fold L.
    repeat case_decide; lia.
Qed.

Lemma smart_inv_tick alg s :
  String.eqb alg "naive" = false →
  smart_inv n s → is_complete s = false →
  ∃ s' log, tick alg s = Ok (s', log) ∧ smart_inv n s' ∧
            current_tick s' = current_tick s + 1 ∧
            ((∃ m j, log = seeding_log m j) ∨
             (∃ k j, log = streaming_log k j)).
Proof.
  intros Halg Hinv Hcomp.
  destruct (smart_inv_transfer _ Hinv Hcomp)
    as (svs' & log & Htr & [j Hst] & Hlog).
  unfold tick, strategy. rewrite Halg, Htr.
  cbn [mbind result_bind fst snd].
  eexists _, _. split; [done|]. split; [|done].
  rewrite (smart_inv_complete _ Hinv) in Hcomp.
  apply bool_decide_eq_false_1 in Hcomp.
  destruct Hinv as [Ht _].
  split; [simpl; lia|]. simpl. by eapply prefix_state_reset.
Qed.

Lemma smart_run alg fuel s :
  String.eqb alg "naive" = false → smart_inv n s →
  (Z.to_nat (Z.log2_up n + 15 - current_tick s) ≤ fuel)%nat →
  ∃ s', run_loop fuel alg s = Some (Ok s') ∧
        current_tick s' = Z.log2_up n + 15.
Proof.
  intros Halg. revert s. induction fuel as [|fuel IH]; intros s Hinv Hfuel.
  - exists s. simpl. rewrite (smart_inv_complete _ Hinv).
    destruct Hinv as [Ht _].
    rewrite bool_decide_eq_true_2 by lia. split; [done|lia].
  - simpl. destruct (is_complete s) eqn:Hcomp.
    + exists s. split; [done|].
      rewrite (smart_inv_complete _ Hinv) in Hcomp.
      by apply bool_decide_eq_true_1 in Hcomp.
    + destruct (smart_inv_tick _ _ Halg Hinv Hcomp)
        as (s' & log & -> & Hinv' & Ht' & _).
      apply IH; [done|lia].
Qed.

Lemma smart_reachable alg s :
  String.eqb alg "naive" = false → reachable alg n s → smart_inv n s.
Proof.
  intros Halg.
  induction 1 as [|s s' log _ IH Hcomp Htick]; [apply smart_inv_init|].
  destruct (smart_inv_tick _ _ Halg IH Hcomp)
    as (s'' & log' & Htick' & Hinv' & _).
  congruence.
Qed.

Lemma smart_ticks_exact alg fuel :
  String.eqb alg "naive" = false →
  (Z.to_nat (Z.log2_up n + 15) ≤ fuel)%nat →
  run_simulation fuel alg (init n) = Some (Ok (Z.log2_up n + 15)).
Proof.
  intros Halg Hfuel. unfold run_simulation.
  destruct (smart_run alg fuel (init n) Halg smart_inv_init)
    as (s' & -> & ->); [simpl; lia|done].
Qed.
End smart.

(** ** The transfer lists of the two phases *)

Lemma seeding_log_exclusive m j :
  NoDup (src <$> seeding_log m j) ∧ NoDup (tgt <$> seeding_log m j).
Proof.
  unfold seeding_log. rewrite <- !list_fmap_compose.
  split; (apply NoDup_fmap_2_strong; [|apply NoDup_seq]);
    intros x y _ _ Hxy; simpl in Hxy; lia.
Qed.

Lemma streaming_log_exclusive k j :
  NoDup (src <$> streaming_log k j) ∧ NoDup (tgt <$> streaming_log k j).
Proof.
  unfold streaming_log. rewrite <- !list_fmap_compose.
  split; (apply NoDup_fmap_2_strong; [|apply NoDup_seq]);
    intros x y _ _ Hxy; simpl in Hxy; lia.
Qed.

Lemma NoDup_short {A} (l : list A) : (length l ≤ 1)%nat → NoDup l.
Proof.
  destruct l as [|x [|y l]]; simpl; intros Hl.
  - apply NoDup_nil_2.
  - apply NoDup_singleton.
  - lia.
Qed.

(** ** Degenerate populations *)

Lemma init_complete_degenerate n : n ≤ 1 → is_complete (init n) = true.
Proof.
  intros Hn. apply (is_complete_iff _ _ (init_well_formed n)).
  intros i c Hi Hc. rewrite init_pres by done.
  apply bool_decide_eq_true_2. lia.
Qed.

Lemma reachable_degenerate alg n s :
  n ≤ 1 → reachable alg n s → s = init n.
Proof.
  intros Hn. induction 1 as [|s s' log _ -> Hcomp _]; [done|].
  by rewrite init_complete_degenerate in Hcomp.
Qed.

Lemma init_empty n : n ≤ 0 → servers (init n) = [].
Proof.
  intros Hn. unfold init, range. simpl.
  by replace (Z.to_nat n) with 0%nat by lia.
Qed.

(** ** Transfers of one tick of a run *)

(** Replays the first [k] ticks of a run from the constructed state. *)
Ltac run_ticks k :=
  lazymatch k with
  | O => apply reach_init
  | S ?k' =>
      eapply reach_tick;
      [run_ticks k' | vm_compute; reflexivity | vm_compute; reflexivity]
  end.

Lemma tick_log_exclusive alg n s s' log :
  reachable alg n s → is_complete s = false →
  tick alg s = Ok (s', log) →
  NoDup (src <$> log) ∧ NoDup (tgt <$> log).
Proof.
  intros Hreach Hcomp Htick.
  destruct (String.eqb alg "naive") eqn:Halg.
  - unfold tick, strategy in Htick. rewrite Halg in Htick.
    destruct (naive_transfer s) as [[s1 log1]|] eqn:Hnaive; [|done].
    simpl in Htick. injection Htick as <- <-.
    split; apply NoDup_short; rewrite length_fmap;
      by eapply naive_transfer_log.
  - destruct (decide (2 ≤ n)) as [Hn|Hn].
    + pose proof (smart_reachable n Hn alg s Halg Hreach) as Hinv.
      destruct (smart_inv_tick n Hn alg s Halg Hinv Hcomp)
        as (s'' & log' & Htick' & _ & _ & Hlog).
      rewrite Htick in Htick'. injection Htick' as -> ->.
      destruct Hlog as [(m & j & ->)|(k & j & ->)].
      * apply seeding_log_exclusive.
      * apply streaming_log_exclusive.
    + apply (reachable_degenerate alg n s ltac:(lia)) in Hreach as ->.
      rewrite init_complete_degenerate in Hcomp by lia. done.
Qed.

(** ** Unrecognised algorithm names *)

Lemma tick_fallback alg s :
  alg ≠ "naive" → tick alg s = tick "smart" s.
Proof.
  intros Halg. unfold tick, strategy.
  by rewrite (proj2 (String.eqb_neq _ _) Halg).
Qed.

Lemma run_loop_fallback alg fuel s :
  alg ≠ "naive" → run_loop fuel alg s = run_loop fuel "smart" s.
Proof.
  intros Halg. revert s. induction fuel as [|fuel IH]; intros s; [done|].
  simpl. rewrite (tick_fallback _ _ Halg).
  destruct (is_complete s); [done|].
  destruct (tick "smart" s) as [[s' log]|e]; [apply IH|done].
Qed.

(** ** Presence bits are only ever set *)


Lemma mark_present_mono svs t c svs' :
  mark_present svs t c = Ok svs' → pres_le svs svs'.
Proof.
  unfold mark_present.
  destruct (py_index svs t) as [tpos|]; [simpl|done].
  destruct (py_get svs t) as [target|]; [simpl|done].
  destruct (py_index (chunks target) c) as [cpos|]; [simpl|done].
  intros [= <-] i j. apply pres_mark_at_mono.
Qed.

Lemma set_transmitting_mono svs i t svs' :
  set_transmitting svs i t = Ok svs' → pres_le svs svs'.
Proof.
  unfold set_transmitting.
  destruct (py_index svs i) as [p|]; [simpl|done].
  intros [= <-] k c. by rewrite pres_flag_at.
Qed.

Lemma source_step_mono p svs svs' log :
  source_step p svs = Ok (svs', log) → pres_le svs svs'.
Proof.
  unfold source_step.
  assert (Ok (svs, []) = Ok (svs', log) → pres_le svs svs') as Hsame.
  { intros [= <- <-] i c. done. }
  destruct (svs !! p) as [source|]; [|done].
  destruct (scan_targets _ _ _ _ _) as [q|]; [|done].
  destruct (svs !! q) as [best|]; [|done].
  destruct (first_needed _ _ _) as [c|]; [|done].
  destruct (mark_present _ _ _) as [svs1|] eqn:Hmark; [simpl|done].
  destruct (set_transmitting _ _ _) as [svs2|] eqn:Hflag; [simpl|done].
  intros [= <- <-] i j Hij.
  by eapply set_transmitting_mono, mark_present_mono.
Qed.

Lemma smart_pass_mono avail svs svs' log :
  smart_pass avail svs = Ok (svs', log) → pres_le svs svs'.
Proof.
  revert svs log. induction avail as [|p avail IH]; intros svs log; simpl.
  - intros [= <- <-] i c. done.
  - destruct (source_step p svs) as [[svs1 log1]|] eqn:Hstep; [simpl|done].
    destruct (smart_pass avail svs1) as [[svs2 log2]|] eqn:Hpass; [simpl|done].
    intros [= <- <-] i c Hic.
    by eapply IH, source_step_mono.
Qed.

Lemma strategy_mono alg s s' log :
  strategy alg s = Ok (s', log) → pres_le (servers s) (servers s').
Proof.
  unfold strategy. destruct (String.eqb alg "naive").
  - unfold naive_transfer.
    destruct (_ =? 0); [done|]. destruct (_ <? _).
    + destruct (mark_present _ _ _) as [svs1|] eqn:Hmark; [simpl|done].
      destruct (set_transmitting _ _ _) as [svs2|] eqn:Hflag; [simpl|done].
      intros [= <- <-] i j Hij. simpl.
      by eapply set_transmitting_mono, mark_present_mono.
    + intros [= <- <-] i c. done.
  - unfold smart_transfer.
    destruct (smart_pass _ _) as [[svs1 log1]|] eqn:Hpass; [simpl|done].
    intros [= <- <-]. simpl. by eapply smart_pass_mono.
Qed.

Lemma tick_mono alg s s' log :
  tick alg s = Ok (s', log) → pres_le (servers s) (servers s').
Proof.
  unfold tick.
  destruct (strategy alg s) as [[s1 log1]|] eqn:Hstrat; [simpl|done].
  intros [= <- <-] i c Hic. simpl. rewrite pres_reset.
  by eapply strategy_mono.
Qed.

Lemma run_loop_mono alg fuel s s' :
  run_loop fuel alg s = Some (Ok s') → pres_le (servers s) (servers s').
Proof.
  revert s. induction fuel as [|fuel IH]; intros s; simpl.
  - destruct (is_complete s); [|done]. intros [= <-] i c. done.
  - destruct (is_complete s); [intros [= <-] i c; done|].
    destruct (tick alg s) as [[s1 log]|] eqn:Htick; [|done].
    intros Hrun i c Hic. by eapply IH, tick_mono.
Qed.

(** * Concrete runs *)

Example naive_five_servers :
  run_simulation 64 "naive" (init 5) = Some (Ok 64).
Proof. by vm_compute. Qed.

Example smart_default_population :
  run_simulation 21 "smart" (init DEFAULT_SERVER_COUNT) = Some (Ok 21).
Proof. by vm_compute. Qed.

(** With four servers the first tick sends chunk 0 from server 0 to
    server 1, the first of the three empty servers. *)
Example smart_four_servers_first_tick :
  snd <$> (match tick "smart" (init 4) with
           | Ok r => Some r
           | Raise _ => None
           end) = Some [mkTransfer 0 1 0].
Proof. by vm_compute. Qed.

(** * The specification's claims *)

(** C1: for every [num_servers = n >= 2], [run_simulation('smart')] from the
    constructed state terminates (any fuel of at least the tick count gives
    the result, and no fuel gives another one), and the tick count [t] it
    returns satisfies [ceil(log2 n) <= t <= (n - 1) * NUM_CHUNKS]. *)
Theorem smart_ticks_bounds n :
  2 ≤ n →
  ∃ t,
    (∀ fuel, (Z.to_nat t ≤ fuel)%nat →
             run_simulation fuel "smart" (init n) = Some (Ok t)) ∧
    (∀ fuel r, run_simulation fuel "smart" (init n) = Some r → r = Ok t) ∧
    Z.log2_up n ≤ t ≤ (n - 1) * NUM_CHUNKS.
Proof.
  intros Hn. exists (Z.log2_up n + 15). split; [|split].
  - intros fuel Hfuel. by apply smart_ticks_exact.
  - intros fuel r Hrun.
    apply (run_simulation_fuel_mono _ _
             (fuel `max` Z.to_nat (Z.log2_up n + 15))) in Hrun; [|lia].
    rewrite (smart_ticks_exact n Hn "smart") in Hrun by (done || lia).
    congruence.
  - pose proof (Z.log2_up_lt_lin n ltac:(lia)). unfold NUM_CHUNKS. lia.
Qed.

Lemma smart_ticks_bounds_witness :
  2 ≤ 4 ∧
  ∃ t,
    (∀ fuel, (Z.to_nat t ≤ fuel)%nat →
             run_simulation fuel "smart" (init 4) = Some (Ok t)) ∧
    (∀ fuel r, run_simulation fuel "smart" (init 4) = Some r → r = Ok t) ∧
    Z.log2_up 4 ≤ t ≤ (4 - 1) * NUM_CHUNKS.
Proof.
  assert (2 ≤ 4) as H by lia.
  split; [exact H | apply (smart_ticks_bounds 4 H)].
Defined.

(** C2: for every [n >= 2], [run_simulation('naive')] returns exactly
    [(n - 1) * NUM_CHUNKS] ticks: that much fuel suffices, and no fuel gives
    another result.  At [n = 5] this is 64. *)
Theorem naive_ticks_exact n :
  2 ≤ n →
  (∀ fuel, (Z.to_nat ((n - 1) * NUM_CHUNKS) ≤ fuel)%nat →
           run_simulation fuel "naive" (init n)
           = Some (Ok ((n - 1) * NUM_CHUNKS))) ∧
  (∀ fuel r, run_simulation fuel "naive" (init n) = Some r →
             r = Ok ((n - 1) * NUM_CHUNKS)).
Proof.
  intros Hn.
  assert (∀ fuel, (Z.to_nat ((n - 1) * NUM_CHUNKS) ≤ fuel)%nat →
            run_simulation fuel "naive" (init n)
            = Some (Ok ((n - 1) * NUM_CHUNKS))) as Hexact.
  { intros fuel Hfuel. unfold run_simulation.
    destruct (naive_run n Hn fuel (init n) (naive_inv_init n Hn))
      as (s' & -> & ->); [simpl; lia|done]. }
  split; [done|].
  intros fuel r Hrun.
  apply (run_simulation_fuel_mono _ _
           (fuel `max` Z.to_nat ((n - 1) * NUM_CHUNKS))) in Hrun; [|lia].
  rewrite Hexact in Hrun by lia. congruence.
Qed.

Lemma naive_ticks_exact_witness :
  2 ≤ 5 ∧ run_simulation 64 "naive" (init 5) = Some (Ok 64).
Proof.
  assert (2 ≤ 5) as H by lia.
  split; [exact H|].
  apply (proj1 (naive_ticks_exact 5 H) 64%nat).
  vm_compute. lia.
Defined.

(** C3: in every tick of a run of either strategy from a constructed
    simulation, no server is the target of more than one transfer. *)
Theorem single_target_per_tick alg n s s' log :
  reachable alg n s → is_complete s = false →
  tick alg s = Ok (s', log) →
  NoDup (tgt <$> log).
Proof.
  intros Hreach Hcomp Htick.
  by destruct (tick_log_exclusive _ _ _ _ _ Hreach Hcomp Htick).
Qed.

Lemma single_target_per_tick_witness :
  NoDup (tgt <$> [mkTransfer 0 2 0; mkTransfer 1 3 0]).
Proof.
  eapply (single_target_per_tick "smart" 4).
  - run_ticks 1%nat.
  - vm_compute; reflexivity.
  - vm_compute; reflexivity.
Defined.

(** C7: in every tick of a run of either strategy from a constructed
    simulation, no server id is the source of more than one transfer. *)
Theorem single_source_per_tick alg n s s' log :
  reachable alg n s → is_complete s = false →
  tick alg s = Ok (s', log) →
  NoDup (src <$> log).
Proof.
  intros Hreach Hcomp Htick.
  by destruct (tick_log_exclusive _ _ _ _ _ Hreach Hcomp Htick).
Qed.

Lemma single_source_per_tick_witness :
  NoDup (src <$> [mkTransfer 0 1 2; mkTransfer 1 2 2; mkTransfer 2 3 2]).
Proof.
  eapply (single_source_per_tick "smart" 4).
  - run_ticks 3%nat.
  - vm_compute; reflexivity.
  - vm_compute; reflexivity.
Defined.

(** C4, as stated, fails: with one server the naive run raises nothing and
    returns 0. *)
Lemma naive_degenerate_no_error :
  run_simulation 0 "naive" (init 1) = Some (Ok 0) ∧
  ¬ ∃ fuel e, run_simulation fuel "naive" (init 1) = Some (Raise e).
Proof.
  split; [reflexivity|].
  intros (fuel & e & Hrun).
  apply (run_simulation_fuel_mono _ _ fuel) in Hrun; [|lia].
  by destruct fuel.
Qed.

(** C4, amended: with [num_servers < 2] construction succeeds and the naive
    run raises no error, it returns 0 whatever the fuel; only a direct call
    of [naive_transfer] on the constructed simulation raises,
    [ZeroDivisionError] for one server and [IndexError] for none. *)
Theorem naive_degenerate n :
  n < 2 →
  (∀ fuel, run_simulation fuel "naive" (init n) = Some (Ok 0)) ∧
  naive_transfer (init n)
  = Raise (if decide (n = 1) then ZeroDivisionError else IndexError).
Proof.
  intros Hn. split.
  - intros fuel. unfold run_simulation.
    destruct fuel; simpl; by rewrite init_complete_degenerate by lia.
  - unfold naive_transfer.
    change (num_servers (init n)) with n.
    change (current_tick (init n)) with 0.
    case_decide as H1.
    + subst n. reflexivity.
    + destruct (Z.eqb_spec (n - 1) 0) as [?|_]; [lia|].
      rewrite Z.mod_0_l, Z.div_0_l by lia.
      change (0 <? NUM_CHUNKS) with true. cbn match.
      unfold mark_present. rewrite init_empty by lia.
      by rewrite py_index_empty.
Qed.

Lemma naive_degenerate_witness :
  0 < 2 ∧
  (∀ fuel, run_simulation fuel "naive" (init 0) = Some (Ok 0)) ∧
  naive_transfer (init 0) = Raise IndexError.
Proof.
  assert (0 < 2) as H by lia.
  split; [exact H | apply (naive_degenerate 0 H)].
Defined.

(** C5: under either strategy a presence bit that is set stays set, across
    one tick and across a whole run, from any state. *)
Theorem present_monotone alg s i c :
  pres (servers s) i c = true →
  (∀ s' log, tick alg s = Ok (s', log) → pres (servers s') i c = true) ∧
  (∀ fuel s', run_loop fuel alg s = Some (Ok s') →
              pres (servers s') i c = true).
Proof.
  intros Hic. split.
  - intros s' log Htick. by eapply tick_mono.
  - intros fuel s' Hrun. by eapply run_loop_mono.
Qed.

Lemma present_monotone_witness :
  pres (servers (init 3)) 0 5 = true ∧
  (∀ s' log, tick "smart" (init 3) = Ok (s', log) →
             pres (servers s') 0 5 = true) ∧
  (∀ fuel s', run_loop fuel "smart" (init 3) = Some (Ok s') →
              pres (servers s') 0 5 = true).
Proof.
  assert (pres (servers (init 3)) 0 5 = true) as H by reflexivity.
  split; [exact H | apply (present_monotone "smart" (init 3) 0 5 H)].
Defined.

(** C6: on a simulation of [n >= 2] servers at tick [t >= 0] the naive
    strategy computes [target_id = t mod (n - 1) + 1], one of the servers
    [1 .. n-1], and [chunk_id = t div (n - 1)].  If [chunk_id < NUM_CHUNKS]
    it sets exactly that presence bit, marks server 0 as transmitting to
    [target_id] and leaves the other servers' flags alone; otherwise it
    changes nothing. *)
Theorem naive_transfer_spec n s :
  2 ≤ n → num_servers s = n → well_formed (Z.to_nat n) (servers s) →
  0 ≤ current_tick s →
  let target_id := current_tick s `mod` (n - 1) + 1 in
  let chunk_id := current_tick s `div` (n - 1) in
  1 ≤ target_id ≤ n - 1 ∧ 0 ≤ chunk_id ∧
  (chunk_id < NUM_CHUNKS →
   ∃ s',
     naive_transfer s = Ok (s', [mkTransfer 0 target_id chunk_id]) ∧
     num_servers s' = n ∧ current_tick s' = current_tick s ∧
     (∀ i c, pres (servers s') i c
             = pres (servers s) i c
               || bool_decide (Z.of_nat i = target_id ∧ Z.of_nat c = chunk_id)) ∧
     pres (servers s') (Z.to_nat target_id) (Z.to_nat chunk_id) = true ∧
     (∃ s0, servers s' !! 0%nat = Some s0 ∧ is_transmitting s0 = true ∧
            transmitting_to s0 = Some target_id) ∧
     (∀ i, i ≠ 0%nat →
           is_transmitting <$> servers s' !! i
           = is_transmitting <$> servers s !! i ∧
           transmitting_to <$> servers s' !! i
           = transmitting_to <$> servers s !! i)) ∧
  (NUM_CHUNKS ≤ chunk_id → naive_transfer s = Ok (s, [])).
Proof.
  intros Hn Hns Hwf Ht target_id chunk_id.
  pose proof (naive_target_range n Hn _ Ht) as Htgt.
  assert (0 ≤ chunk_id) as Hc0 by (apply Z.div_pos; lia).
  split; [done|]. split; [done|]. split; [|by apply naive_transfer_idle].
  intros Hchunk.
  rewrite (naive_transfer_ok n Hn s Hns Hwf Ht Hchunk).
  fold target_id chunk_id.
  eexists. split; [done|]. cbn [num_servers current_tick servers].
  split; [done|]. split; [done|].
  destruct Hwf as [Hlen Hwf].
  destruct (lookup_lt_is_Some_2 (servers s) (Z.to_nat target_id))
    as [sv Hsv]; [lia|].
  destruct (lookup_lt_is_Some_2 (servers s) 0) as [sv0 Hsv0]; [lia|].
  destruct (Hwf _ _ Hsv) as [_ Hl].
  assert (∀ i c,
    pres (flag_at 0 target_id
            (mark_at (Z.to_nat target_id) (Z.to_nat chunk_id) (servers s))) i c
    = pres (servers s) i c
      || bool_decide (Z.of_nat i = target_id ∧ Z.of_nat c = chunk_id))
    as Hpres.
  { intros i c. rewrite pres_flag_at.
    rewrite (pres_mark_at _ _ _ _ _ _ Hsv) by (unfold NUM_CHUNKS in *; lia).
    f_equal. apply bool_decide_ext. lia. }
  split; [done|]. split.
  { rewrite Hpres. rewrite (bool_decide_eq_true_2 (_ ∧ _)) by lia.
    apply orb_true_r. }
  split.
  - unfold flag_at, mark_at. rewrite list_lookup_alter_eq.
    rewrite list_lookup_alter_ne by lia. rewrite Hsv0. simpl. eauto.
  - intros i Hi. unfold flag_at. rewrite list_lookup_alter_ne by done.
    unfold mark_at.
    destruct (decide (i = Z.to_nat target_id)) as [->|Hne].
    + rewrite list_lookup_alter_eq, Hsv. done.
    + by rewrite list_lookup_alter_ne.
Qed.

Lemma naive_transfer_spec_witness :
  (2 ≤ 3 ∧ num_servers (init 3) = 3 ∧
   well_formed (Z.to_nat 3) (servers (init 3)) ∧
   0 ≤ current_tick (init 3)) ∧
  ∃ s',
    naive_transfer (init 3) = Ok (s', [mkTransfer 0 1 0]) ∧
    pres (servers s') 1 0 = true ∧
    ∃ s0, servers s' !! 0%nat = Some s0 ∧ is_transmitting s0 = true ∧
          transmitting_to s0 = Some 1.
Proof.
  assert (2 ≤ 3) as H by lia.
  assert (0 ≤ current_tick (init 3)) as Ht by (simpl; lia).
  split; [exact (conj H (conj eq_refl (conj (init_well_formed 3) Ht)))|].
  destruct (naive_transfer_spec 3 (init 3) H eq_refl (init_well_formed 3) Ht)
    as (_ & _ & Hsend & _).
  destruct (Hsend ltac:(by vm_compute))
    as (s' & Heq & _ & _ & _ & Hp & Hflag & _).
  exists s'. split; [exact Heq|]. split; [exact Hp | exact Hflag].
Defined.

(** C8: with two servers both strategies take exactly [NUM_CHUNKS] ticks. *)
Theorem two_servers_coincide fuel :
  (16 ≤ fuel)%nat →
  run_simulation fuel "smart" (init 2) = Some (Ok NUM_CHUNKS) ∧
  run_simulation fuel "naive" (init 2) = Some (Ok NUM_CHUNKS).
Proof.
  intros Hfuel.
  split; apply (run_simulation_fuel_mono _ 16); (done || by vm_compute).
Qed.

Lemma two_servers_coincide_witness :
  run_simulation 20 "smart" (init 2) = Some (Ok NUM_CHUNKS) ∧
  run_simulation 20 "naive" (init 2) = Some (Ok NUM_CHUNKS).
Proof. apply (two_servers_coincide 20). lia. Defined.

(** C9: any algorithm name other than ['naive'] selects the smart strategy
    itself: on every state the strategy called is [smart_transfer], so the
    tick and the whole run are those of ['smart'].  No error is raised for
    the name: from every constructed simulation the run raises nothing and
    returns a tick count, the one of the smart strategy. *)
Theorem unknown_algorithm_fallback alg fuel s :
  alg ≠ "naive" →
  strategy alg s = smart_transfer s ∧
  tick alg s = tick "smart" s ∧
  run_simulation fuel alg s = run_simulation fuel "smart" s ∧
  (∀ n e, run_simulation fuel alg (init n) ≠ Some (Raise e)) ∧
  (∀ n, ∃ t, ∀ fuel', (Z.to_nat t ≤ fuel')%nat →
                      run_simulation fuel' alg (init n) = Some (Ok t) ∧
                      run_simulation fuel' "smart" (init n) = Some (Ok t)).
Proof.
  intros Halg.
  assert (String.eqb alg "naive" = false) as Heqb
    by (by apply String.eqb_neq).
  assert (∀ n, ∃ t, ∀ fuel', (Z.to_nat t ≤ fuel')%nat →
            run_simulation fuel' alg (init n) = Some (Ok t) ∧
            run_simulation fuel' "smart" (init n) = Some (Ok t)) as Hterm.
  { intros n. destruct (decide (2 ≤ n)) as [Hn|Hn].
    - exists (Z.log2_up n + 15). intros fuel' Hfuel.
      split; by apply smart_ticks_exact.
    - exists 0. intros fuel' _. unfold run_simulation.
      split; destruct fuel'; simpl;
        by rewrite init_complete_degenerate by lia. }
  split; [unfold strategy; by rewrite Heqb|].
  split; [by apply tick_fallback|].
  split; [unfold run_simulation; by rewrite (run_loop_fallback alg)|].
  split; [|done].
  intros n e Hrun. destruct (Hterm n) as [t Ht].
  apply (run_simulation_fuel_mono _ _ (fuel `max` Z.to_nat t)) in Hrun;
    [|lia].
  destruct (Ht (fuel `max` Z.to_nat t)%nat ltac:(lia)) as [Hok _].
  congruence.
Qed.

Lemma unknown_algorithm_fallback_witness :
  "greedy" ≠ "naive" ∧
  strategy "greedy" (init 4) = smart_transfer (init 4) ∧
  tick "greedy" (init 4) = tick "smart" (init 4) ∧
  run_simulation 30 "greedy" (init 4) = run_simulation 30 "smart" (init 4) ∧
  (∀ n e, run_simulation 30 "greedy" (init n) ≠ Some (Raise e)) ∧
  (∀ n, ∃ t, ∀ fuel', (Z.to_nat t ≤ fuel')%nat →
                      run_simulation fuel' "greedy" (init n) = Some (Ok t) ∧
                      run_simulation fuel' "smart" (init n) = Some (Ok t)).
Proof.
  assert ("greedy" ≠ "naive") as H by discriminate.
  split; [exact H|].
  exact (unknown_algorithm_fallback "greedy" 30 (init 4) H).
Defined.

(** C10: for [num_servers <= 1] the constructed state is already complete,
    and [run_simulation] returns 0 under any algorithm name and any fuel.
    Fuel 0 allows no execution of the loop body, hence no call of a
    strategy, and the loop hands back the constructed state itself. *)
Theorem degenerate_returns_zero n alg fuel :
  n ≤ 1 →
  is_complete (init n) = true ∧
  run_simulation fuel alg (init n) = Some (Ok 0) ∧
  run_simulation 0 alg (init n) = Some (Ok 0) ∧
  run_loop fuel alg (init n) = Some (Ok (init n)).
Proof.
  intros Hn. pose proof (init_complete_degenerate n Hn) as Hcomp.
  split; [done|]. unfold run_simulation.
  repeat split; destruct fuel; simpl; by rewrite Hcomp.
Qed.

Lemma degenerate_returns_zero_witness :
  0 ≤ 1 ∧
  is_complete (init 0) = true ∧
  run_simulation 7 "naive" (init 0) = Some (Ok 0) ∧
  run_simulation 0 "naive" (init 0) = Some (Ok 0) ∧
  run_loop 7 "naive" (init 0) = Some (Ok (init 0)).
Proof.
  assert (0 ≤ 1) as H by lia.
  split; [exact H | apply (degenerate_returns_zero 0 "naive" 7 H)].
Defined.

(** * Further properties of the code *)

(** ** One tick: counter, configuration and identities *)

Lemma strategy_counters alg s s' log :
  strategy alg s = Ok (s', log) →
  current_tick s' = current_tick s ∧ num_servers s' = num_servers s.
Proof.
  unfold strategy. destruct (String.eqb alg "naive").
  - unfold naive_transfer.
    destruct (_ =? 0); [done|]. destruct (_ <? _).
    + destruct (mark_present _ _ _) as [svs1|]; [simpl|done].
      destruct (set_transmitting _ _ _) as [svs2|]; [simpl|done].
      by intros [= <- <-].
    + by intros [= <- <-].
  - unfold smart_transfer.
    destruct (smart_pass _ _) as [[svs1 log1]|]; [simpl|done].
    by intros [= <- <-].
Qed.

Lemma tick_counters alg s s' log :
  tick alg s = Ok (s', log) →
  current_tick s' = current_tick s + 1 ∧ num_servers s' = num_servers s.
Proof.
  unfold tick.
  destruct (strategy alg s) as [[s1 log1]|] eqn:Hstrat; [simpl|done].
  destruct (strategy_counters _ _ _ _ Hstrat) as [Ht Hn].
  intros [= <- <-]. simpl. by rewrite Ht, Hn.
Qed.

Lemma fmap_alter_invariant {A B} (f : A → B) (g : A → A) i (l : list A) :
  (∀ x, f (g x) = f x) → f <$> alter g i l = f <$> l.
Proof.
  intros Hfg. apply list_eq. intros k. rewrite !list_lookup_fmap.
  destruct (decide (k = i)) as [->|Hne].
  - rewrite list_lookup_alter_eq. destruct (l !! i); simpl; [|done].
    by rewrite Hfg.
  - by rewrite list_lookup_alter_ne.
Qed.

Lemma shape_mark_at p c svs : shape (mark_at p c svs) = shape svs.
Proof.
  unfold shape, mark_at. apply fmap_alter_invariant. intros sv. simpl.
  f_equal. by apply fmap_alter_invariant.
Qed.

Lemma shape_flag_at p t svs : shape (flag_at p t svs) = shape svs.
Proof. unfold shape, flag_at. by apply fmap_alter_invariant. Qed.

Lemma shape_reset svs : shape (reset_server <$> svs) = shape svs.
Proof. unfold shape. rewrite <- list_fmap_compose. done. Qed.

Lemma mark_present_shape svs t c svs' :
  mark_present svs t c = Ok svs' → shape svs' = shape svs.
Proof.
  unfold mark_present.
  destruct (py_index svs t) as [tpos|]; [simpl|done].
  destruct (py_get svs t) as [target|]; [simpl|done].
  destruct (py_index (chunks target) c) as [cpos|]; [simpl|done].
  intros [= <-]. apply shape_mark_at.
Qed.

Lemma set_transmitting_shape svs i t svs' :
  set_transmitting svs i t = Ok svs' → shape svs' = shape svs.
Proof.
  unfold set_transmitting.
  destruct (py_index svs i) as [p|]; [simpl|done].
  intros [= <-]. apply shape_flag_at.
Qed.

Lemma source_step_shape p svs svs' log :
  source_step p svs = Ok (svs', log) → shape svs' = shape svs.
Proof.
  unfold source_step.
  assert (Ok (svs, []) = Ok (svs', log) → shape svs' = shape svs) as Hsame
    by (by intros [= <- <-]).
  destruct (svs !! p) as [source|]; [|done].
  destruct (scan_targets _ _ _ _ _) as [q|]; [|done].
  destruct (svs !! q) as [best|]; [|done].
  destruct (first_needed _ _ _) as [c|]; [|done].
  destruct (mark_present _ _ _) as [svs1|] eqn:Hmark; [simpl|done].
  destruct (set_transmitting _ _ _) as [svs2|] eqn:Hflag; [simpl|done].
  intros [= <- <-].
  rewrite (set_transmitting_shape _ _ _ _ Hflag).
  by eapply mark_present_shape.
Qed.

Lemma smart_pass_shape avail svs svs' log :
  smart_pass avail svs = Ok (svs', log) → shape svs' = shape svs.
Proof.
  revert svs log. induction avail as [|p avail IH]; intros svs log; simpl.
  - by intros [= <- <-].
  - destruct (source_step p svs) as [[svs1 log1]|] eqn:Hstep; [simpl|done].
    destruct (smart_pass avail svs1) as [[svs2 log2]|] eqn:Hpass; [simpl|done].
    intros [= <- <-].
    rewrite (IH _ _ Hpass). by eapply source_step_shape.
Qed.

Lemma strategy_shape alg s s' log :
  strategy alg s = Ok (s', log) → shape (servers s') = shape (servers s).
Proof.
  unfold strategy. destruct (String.eqb alg "naive").
  - unfold naive_transfer.
    destruct (_ =? 0); [done|]. destruct (_ <? _).
    + destruct (mark_present _ _ _) as [svs1|] eqn:Hmark; [simpl|done].
      destruct (set_transmitting _ _ _) as [svs2|] eqn:Hflag; [simpl|done].
      intros [= <- <-]. simpl.
      rewrite (set_transmitting_shape _ _ _ _ Hflag).
      by eapply mark_present_shape.
    + by intros [= <- <-].
  - unfold smart_transfer.
    destruct (smart_pass _ _) as [[svs1 log1]|] eqn:Hpass; [simpl|done].
    intros [= <- <-]. simpl. by eapply smart_pass_shape.
Qed.

Lemma tick_shape alg s s' log :
  tick alg s = Ok (s', log) → shape (servers s') = shape (servers s).
Proof.
  unfold tick.
  destruct (strategy alg s) as [[s1 log1]|] eqn:Hstrat; [simpl|done].
  intros [= <- <-]. simpl. rewrite shape_reset.
  by eapply strategy_shape.
Qed.

(** X1: [__init__(n)] builds [max n 0] servers.  The server at position
    [i] has id [i], is idle with no target, and has [NUM_CHUNKS] chunk slots
    whose ids are their positions; every slot of server 0 is present and no
    slot of any other server is. *)
Theorem init_spec n i :
  length (servers (init n)) = Z.to_nat n ∧
  num_servers (init n) = n ∧ current_tick (init n) = 0 ∧
  ((i < Z.to_nat n)%nat →
   ∃ sv, servers (init n) !! i = Some sv ∧
         sid sv = Z.of_nat i ∧
         is_transmitting sv = false ∧ transmitting_to sv = None ∧
         length (chunks sv) = Z.to_nat NUM_CHUNKS ∧
         ∀ c ch, chunks sv !! c = Some ch →
                 cid ch = Z.of_nat c ∧ present ch = bool_decide (i = 0%nat)).
Proof.
  split; [apply init_length|]. split; [done|]. split; [done|].
  intros Hi. eexists. split; [by apply init_lookup|]. cbn [sid chunks
    is_transmitting transmitting_to].
  split; [done|]. split; [done|]. split; [done|].
  split; [unfold range; by rewrite !length_fmap, length_seq|].
  intros c ch. unfold range. rewrite !list_lookup_fmap.
  destruct (seq 0 (Z.to_nat NUM_CHUNKS) !! c) as [c'|] eqn:Hc; [|done].
  apply lookup_seq in Hc as [-> _]. simpl. intros [= <-]. simpl.
  split; [done|]. by destruct i.
Qed.

Lemma init_spec_witness :
  (1 < Z.to_nat 3)%nat ∧
  ∃ sv, servers (init 3) !! 1%nat = Some sv ∧
        sid sv = 1 ∧ is_transmitting sv = false ∧ transmitting_to sv = None ∧
        length (chunks sv) = Z.to_nat NUM_CHUNKS ∧
        ∀ c ch, chunks sv !! c = Some ch →
                cid ch = Z.of_nat c ∧ present ch = false.
Proof.
  assert (1 < Z.to_nat 3)%nat as H by (vm_compute; lia).
  split; [exact H|].
  exact (proj2 (proj2 (proj2 (init_spec 3 1))) H).
Defined.

(** X2: when [run_simulation]'s loop returns, it has executed exactly
    [k] ticks for some [k] within the fuel, the returned state is the one
    after those [k] ticks and is complete, its tick counter has advanced by
    [k], and the state after every smaller number of ticks was not
    complete. *)
Theorem run_loop_first_complete alg fuel s s' :
  run_loop fuel alg s = Some (Ok s') →
  ∃ k, (k ≤ fuel)%nat ∧ iter_tick k alg s = Ok s' ∧
       is_complete s' = true ∧
       current_tick s' = current_tick s + Z.of_nat k ∧
       ∀ j, (j < k)%nat →
            ∃ sj, iter_tick j alg s = Ok sj ∧ is_complete sj = false.
Proof.
  revert s. induction fuel as [|fuel IH]; intros s; simpl.
  - destruct (is_complete s) eqn:Hc; [|done]. intros [= <-].
    exists 0%nat. repeat split; try done; lia.
  - destruct (is_complete s) eqn:Hc.
    + intros [= <-].
      exists 0%nat. repeat split; try done; lia.
    + destruct (tick alg s) as [[s1 log]|] eqn:Htick; [|done].
      intros Hrun.
      destruct (IH _ Hrun) as (k & Hk & Hiter & Hfin & Ht & Hbefore).
      destruct (tick_counters _ _ _ _ Htick) as [Ht1 _].
      exists (S k). split; [lia|]. simpl. rewrite Htick. simpl.
      split; [done|]. split; [done|]. split; [lia|].
      intros [|j] Hj; simpl.
      * by exists s.
      * rewrite Htick. simpl. apply Hbefore. lia.
Qed.

Lemma run_loop_first_complete_witness :
  ∃ s', run_loop 20 "smart" (init 2) = Some (Ok s') ∧
  ∃ k, (k ≤ 20)%nat ∧ iter_tick k "smart" (init 2) = Ok s' ∧
       is_complete s' = true ∧
       current_tick s' = current_tick (init 2) + Z.of_nat k ∧
       ∀ j, (j < k)%nat →
            ∃ sj, iter_tick j "smart" (init 2) = Ok sj ∧
                  is_complete sj = false.
Proof.
  eexists. split; [vm_compute; reflexivity|].
  apply (run_loop_first_complete "smart" 20 (init 2)).
  vm_compute; reflexivity.
Defined.

(** X3: the transmission flags are tick-scoped: in every state of a run,
    the constructed one included, every server is idle and has no target,
    so a strategy never sees a flag left over from an earlier tick. *)
Theorem run_flags_clear alg n s i sv :
  reachable alg n s → servers s !! i = Some sv →
  is_transmitting sv = false ∧ transmitting_to sv = None.
Proof.
  intros Hreach. revert i sv.
  induction Hreach as [|s s' log _ _ _ Htick]; intros i sv Hsv.
  - assert (i < Z.to_nat n)%nat as Hi.
    { rewrite <- init_length. by eapply lookup_lt_Some. }
    rewrite init_lookup in Hsv by done. by injection Hsv as <-.
  - unfold tick in Htick.
    destruct (strategy alg s) as [[s1 log1]|]; [simpl in Htick|done].
    injection Htick as <- <-. simpl in Hsv.
    rewrite list_lookup_fmap in Hsv.
    destruct (servers s1 !! i) as [sv1|]; [|done].
    by injection Hsv as <-.
Qed.

Lemma run_flags_clear_witness :
  ∃ s sv, iter_tick 2 "smart" (init 4) = Ok s ∧
          servers s !! 0%nat = Some sv ∧
          is_transmitting sv = false ∧ transmitting_to sv = None.
Proof.
  eexists _, _. split; [vm_compute; reflexivity|].
  split; [vm_compute; reflexivity|].
  eapply (run_flags_clear "smart" 4 _ 0%nat);
    [run_ticks 2%nat | vm_compute; reflexivity].
Defined.

(** X4: a tick of either strategy, from any state, changes no identity and
    resizes nothing: the server ids, the number of servers, the chunk ids
    and the number of chunk slots of every server are the same afterwards,
    and so is [num_servers]; the same holds across a whole run. *)
Theorem identities_preserved alg s :
  (∀ s' log, tick alg s = Ok (s', log) →
             shape (servers s') = shape (servers s) ∧
             num_servers s' = num_servers s) ∧
  (∀ fuel s', run_loop fuel alg s = Some (Ok s') →
              shape (servers s') = shape (servers s) ∧
              num_servers s' = num_servers s).
Proof.
  split.
  - intros s' log Htick. split; [by eapply tick_shape|].
    by destruct (tick_counters _ _ _ _ Htick).
  - intros fuel. revert s. induction fuel as [|fuel IH]; intros s s'; simpl.
    + destruct (is_complete s); [|done]. by intros [= <-].
    + destruct (is_complete s); [by intros [= <-]|].
      destruct (tick alg s) as [[s1 log]|] eqn:Htick; [|done].
      intros Hrun. destruct (IH _ _ Hrun) as [-> ->].
      split; [by eapply tick_shape|].
      by destruct (tick_counters _ _ _ _ Htick).
Qed.

(** ** The course of a run *)

Section smart_course.
Variable n : Z.
Hypothesis Hn : 2 ≤ n.

Lemma smart_transfer_exact s :
  smart_inv n s → is_complete s = false →
  ∃ svs',
    smart_transfer s
    = Ok ({| num_servers := num_servers s;
             current_tick := current_tick s;
             servers := svs' |}, smart_log n (current_tick s)).
Proof.
  intros Hinv Hcomp. rewrite (smart_inv_complete n Hn _ Hinv) in Hcomp.
  apply bool_decide_eq_false_1 in Hcomp.
  destruct Hinv as [Ht Hst]. unfold smart_transfer, smart_log.
  set (t := current_tick s) in *. set (L := Z.log2_up n) in *.
  destruct (decide (t < L)) as [Hseed|Hstream].
  - assert (1 ≤ 2 ^ t < n) as HP.
    { split; [pose proof (Z.pow_pos_nonneg 2 t); lia|].
      apply Z.log2_up_lt_pow2; [lia|done]. }
    set (m := Z.to_nat (2 ^ t)).
    apply (λ H, prefix_state_ext H (seeding m 0)) in Hst.
    2:{ intros i Hi. unfold seeding, smart_fill. fold L.
        repeat case_decide; lia. }
    rewrite (prefix_state_available _ _ _ m Hst); [|lia|].
    2:{ intros i Hi. unfold seeding. repeat case_decide; lia. }
    destruct (seeding_pass (Z.to_nat n) m m ltac:(lia) 0%nat _ Hst
                ltac:(lia) ltac:(lia)) as (svs' & -> & _).
    cbn [mbind result_bind fst snd]. rewrite drop_0. by eexists.
  - set (k := t - L + 1).
    apply (λ H, prefix_state_ext H (streaming k 0)) in Hst.
    2:{ intros i Hi. unfold streaming, smart_fill. fold L.
        repeat case_decide; lia. }
    rewrite (prefix_state_available _ _ _ (Z.to_nat n) Hst); [|lia|].
    2:{ intros i Hi. unfold streaming. repeat case_decide; lia. }
    destruct (streaming_pass (Z.to_nat n) k (Z.to_nat n - 1) ltac:(lia)
                0%nat _ Hst ltac:(lia)) as (svs' & Hpass & _).
    replace (S (Z.to_nat n - 1)) with (Z.to_nat n) in Hpass by lia.
    rewrite Hpass.
    cbn [mbind result_bind fst snd]. rewrite drop_0. by eexists.
Qed.
End smart_course.

(** X5: for every [n >= 2] the smart run takes exactly
    [ceil(log2 n) + NUM_CHUNKS - 1] ticks.  The naive run of the same
    population takes [(n - 1) * NUM_CHUNKS], which is never fewer, and
    strictly more as soon as there are three servers. *)
Theorem smart_ticks_formula n fuel :
  2 ≤ n → (Z.to_nat ((n - 1) * NUM_CHUNKS) ≤ fuel)%nat →
  run_simulation fuel "smart" (init n)
  = Some (Ok (Z.log2_up n + NUM_CHUNKS - 1)) ∧
  run_simulation fuel "naive" (init n) = Some (Ok ((n - 1) * NUM_CHUNKS)) ∧
  Z.log2_up n + NUM_CHUNKS - 1 ≤ (n - 1) * NUM_CHUNKS ∧
  (3 ≤ n → Z.log2_up n + NUM_CHUNKS - 1 < (n - 1) * NUM_CHUNKS).
Proof.
  intros Hn Hfuel.
  pose proof (Z.log2_up_lt_lin n ltac:(lia)) as Hlin.
  unfold NUM_CHUNKS in *. split; [|split; [|lia]].
  - replace (Z.log2_up n + 16 - 1) with (Z.log2_up n + 15) by lia.
    apply smart_ticks_exact; [done|done|lia].
  - unfold run_simulation.
    destruct (naive_run n Hn fuel (init n) (naive_inv_init n Hn))
      as (s' & -> & ->); [simpl; unfold NUM_CHUNKS; lia|done].
Qed.

Lemma smart_ticks_formula_witness :
  run_simulation 150 "smart" (init 10) = Some (Ok 19) ∧
  run_simulation 150 "naive" (init 10) = Some (Ok 144).
Proof.
  assert (2 ≤ 10) as H by lia.
  assert (Z.to_nat ((10 - 1) * NUM_CHUNKS) ≤ 150)%nat as Hf
    by (vm_compute; lia).
  destruct (smart_ticks_formula 10 150 H Hf) as (Hs & Hv & _).
  split; [exact Hs | exact Hv].
Defined.

(** X6: in a smart run among [n >= 2] servers the state after [t] ticks is
    determined: server [i] holds exactly the chunks below
    [smart_fill n t i], so every server holds a prefix of the chunk ids.
    While [t < ceil(log2 n)] the servers below [2^t] hold chunk 0 alone and
    the others nothing; from then on all servers but server 0 hold the same
    [t - ceil(log2 n) + 1] chunks.  The run is complete exactly at
    [t = ceil(log2 n) + 15]. *)
Theorem smart_run_state alg n s :
  2 ≤ n → alg ≠ "naive" → reachable alg n s →
  0 ≤ current_tick s ≤ Z.log2_up n + 15 ∧
  well_formed (Z.to_nat n) (servers s) ∧
  (∀ i c, (i < Z.to_nat n)%nat → (c < 16)%nat →
          pres (servers s) i c
          = bool_decide (Z.of_nat c < smart_fill n (current_tick s) i)) ∧
  is_complete s = bool_decide (current_tick s = Z.log2_up n + 15).
Proof.
  intros Hn Halg Hreach.
  apply String.eqb_neq in Halg.
  pose proof (smart_reachable n Hn alg s Halg Hreach) as Hinv.
  pose proof (smart_inv_complete n Hn s Hinv) as Hcomp.
  destruct Hinv as [Ht (Hwf & _ & Hpres & _)]. done.
Qed.

Lemma smart_run_state_witness :
  ∃ s, iter_tick 3 "smart" (init 5) = Ok s ∧
       (∀ i c, (i < Z.to_nat 5)%nat → (c < 16)%nat →
               pres (servers s) i c
               = bool_decide (Z.of_nat c < smart_fill 5 (current_tick s) i)) ∧
       is_complete s = bool_decide (current_tick s = Z.log2_up 5 + 15).
Proof.
  eexists. split; [vm_compute; reflexivity|].
  assert (2 ≤ 5) as H by lia.
  assert ("smart" ≠ "naive") as Ha by discriminate.
  refine (let R := smart_run_state "smart" 5 _ H Ha _ in
          conj (proj1 (proj2 (proj2 R))) (proj2 (proj2 (proj2 R)))).
  run_ticks 3%nat.
Defined.

(** X7: in a smart run among [n >= 2] servers the transfers of the tick
    that starts at counter [t] are exactly [smart_log n t], in this order:
    while seeding, sender [i] gives chunk 0 to server [2^t + i]; afterwards
    server [i] passes chunk [t - ceil(log2 n) + 1] to server [i + 1] for
    every [i] up to [n - 2], a chunk that every sender but server 0
    received earlier in the same tick. *)
Theorem smart_tick_transfers alg n s s' log :
  2 ≤ n → alg ≠ "naive" → reachable alg n s →
  is_complete s = false → tick alg s = Ok (s', log) →
  log = smart_log n (current_tick s).
Proof.
  intros Hn Halg Hreach Hcomp.
  apply String.eqb_neq in Halg.
  pose proof (smart_reachable n Hn alg s Halg Hreach) as Hinv.
  destruct (smart_transfer_exact n Hn s Hinv Hcomp) as (svs' & Htr).
  unfold tick, strategy. rewrite Halg, Htr. simpl.
  by intros [= <- <-].
Qed.

Lemma smart_tick_transfers_witness :
  ∃ s, iter_tick 3 "smart" (init 4) = Ok s ∧
       [mkTransfer 0 1 2; mkTransfer 1 2 2; mkTransfer 2 3 2]
       = smart_log 4 (current_tick s).
Proof.
  eexists. split; [vm_compute; reflexivity|].
  assert (2 ≤ 4) as H by lia.
  assert ("smart" ≠ "naive") as Ha by discriminate.
  eapply (smart_tick_transfers "smart" 4 _ _ _ H Ha).
  - run_ticks 3%nat.
  - vm_compute; reflexivity.
  - vm_compute; reflexivity.
Defined.

(** X8: in a naive run among [n >= 2] servers the state after [t] ticks is
    determined: server 0 holds everything and server [i >= 1] holds chunk
    [c] exactly when [c * (n - 1) + (i - 1) < t].  The run is complete
    exactly at [t = (n - 1) * NUM_CHUNKS], and until then the tick makes the
    single transfer of chunk [t div (n - 1)] from server 0 to server
    [t mod (n - 1) + 1]. *)
Theorem naive_run_state n s :
  2 ≤ n → reachable "naive" n s →
  0 ≤ current_tick s ≤ (n - 1) * NUM_CHUNKS ∧
  (∀ i c, (i < Z.to_nat n)%nat → (c < 16)%nat →
          pres (servers s) i c
          = bool_decide (i = 0%nat ∨
              Z.of_nat c * (n - 1) + Z.of_nat i - 1 < current_tick s)) ∧
  is_complete s = bool_decide (current_tick s = (n - 1) * NUM_CHUNKS) ∧
  (is_complete s = false →
   ∃ s', tick "naive" s
         = Ok (s', [mkTransfer 0 (current_tick s `mod` (n - 1) + 1)
                                 (current_tick s `div` (n - 1))])).
Proof.
  intros Hn Hreach.
  pose proof (naive_reachable n Hn s Hreach) as Hinv.
  pose proof (naive_inv_complete n Hn s Hinv) as Hcomp.
  split; [by destruct Hinv as (_ & _ & ? & _)|].
  split; [by destruct Hinv as (_ & _ & _ & ?)|].
  split; [done|]. intros Hfalse.
  destruct (naive_inv_tick n Hn s Hinv Hfalse) as (s' & log & -> & _ & _ & ->).
  by eexists.
Qed.

Lemma naive_run_state_witness :
  ∃ s, iter_tick 5 "naive" (init 4) = Ok s ∧
       is_complete s = bool_decide (current_tick s = (4 - 1) * NUM_CHUNKS) ∧
       (is_complete s = false →
        ∃ s', tick "naive" s
              = Ok (s', [mkTransfer 0 (current_tick s `mod` (4 - 1) + 1)
                                      (current_tick s `div` (4 - 1))])).
Proof.
  eexists. split; [vm_compute; reflexivity|].
  assert (2 ≤ 4) as H by lia.
  refine (let R := naive_run_state 4 _ H _ in proj2 (proj2 R)).
  run_ticks 5%nat.
Defined.

(** ** The smart strategy on any well-formed state *)

Lemma first_needed_Some i scs tcs c :
  first_needed i scs tcs = Some c →
  (i ≤ c)%nat ∧
  ∃ sc tc, scs !! (c - i)%nat = Some sc ∧ tcs !! (c - i)%nat = Some tc ∧
           present sc = true ∧ present tc = false.
Proof.
  revert i tcs. induction scs as [|sc scs IH]; intros i [|tc tcs]; simpl;
    [done..|].
  destruct (needed (sc, tc)) eqn:Hneed.
  - intros [= <-]. split; [lia|]. exists sc, tc.
    replace (i - i)%nat with 0%nat by lia.
    unfold needed in Hneed. simpl in Hneed.
    apply andb_true_iff in Hneed as [Hsc Htc].
    apply negb_true_iff in Htc. done.
  - intros Hrec. destruct (IH _ _ Hrec) as (Hle & sc' & tc' & Hs & Ht & Hp).
    split; [lia|]. exists sc', tc'.
    replace (c - i)%nat with (S (c - S i)) by lia. done.
Qed.

Lemma scan_targets_Some source pos rest best least q :
  scan_targets source pos rest best least = Some q →
  best = Some q ∨
  ((pos ≤ q)%nat ∧ ∃ t, rest !! (q - pos)%nat = Some t ∧ eligible source t).
Proof.
  revert pos best least.
  induction rest as [|t rest IH]; intros pos best least; simpl; [by left|].
  assert (∀ best' least',
    scan_targets source (S pos) rest best' least' = Some q →
    best' = Some q ∨
    ((pos ≤ q)%nat ∧
     ∃ t', (t :: rest) !! (q - pos)%nat = Some t' ∧ eligible source t'))
    as Hrec.
  { intros best' least' Hscan.
    destruct (IH _ _ _ Hscan) as [?|(Hle & t' & Ht' & Hel)]; [by left|].
    right. split; [lia|]. exists t'.
    replace (q - pos)%nat with (S (q - S pos)) by lia. done. }
  case_bool_decide as Hid; [apply Hrec|].
  destruct (has_needed_chunks source t) eqn:Hneed; simpl; [|apply Hrec].
  destruct (_ <? _); simpl; [|apply Hrec].
  destruct (is_transmitting t) eqn:Htx; simpl; [apply Hrec|].
  intros Hscan. destruct (Hrec _ _ Hscan) as [[= <-]|?]; [|by right].
  right. split; [lia|]. exists t.
  replace (pos - pos)%nat with 0%nat by lia. done.
Qed.

Lemma count_present_alter cs c ch :
  cs !! c = Some ch → present ch = false →
  count_present (alter set_present c cs) = count_present cs + 1.
Proof.
  revert c. induction cs as [|ch0 cs IH]; intros [|c] Hc Hp; try done.
  - injection Hc as ->.
    change (alter set_present 0%nat (ch :: cs)) with (set_present ch :: cs).
    simpl. rewrite Hp. lia.
  - change (alter set_present (S c) (ch0 :: cs))
      with (ch0 :: alter set_present c cs).
    cbn [count_present]. rewrite (IH c Hc Hp). lia.
Qed.

Lemma total_present_alter f q svs sv :
  svs !! q = Some sv →
  total_present (alter f q svs)
  = total_present svs - count_present (chunks sv)
    + count_present (chunks (f sv)).
Proof.
  revert q. induction svs as [|sv0 svs IH]; intros [|q] Hq; try done.
  - injection Hq as ->.
    change (alter f 0%nat (sv :: svs)) with (f sv :: svs).
    cbn [total_present]. lia.
  - change (alter f (S q) (sv0 :: svs)) with (sv0 :: alter f q svs).
    cbn [total_present]. rewrite (IH q Hq). lia.
Qed.

Lemma total_present_mark_at n svs q c :
  well_formed n svs → (q < n)%nat → (c < 16)%nat → pres svs q c = false →
  total_present (mark_at q c svs) = total_present svs + 1.
Proof.
  intros [Hlen Hwf] Hq Hc Hp.
  destruct (lookup_lt_is_Some_2 svs q) as [sv Hsv]; [lia|].
  destruct (Hwf _ _ Hsv) as [_ Hl].
  destruct (lookup_lt_is_Some_2 (chunks sv) c) as [ch Hch]; [lia|].
  unfold pres in Hp. rewrite Hsv, Hch in Hp.
  unfold mark_at. rewrite (total_present_alter _ _ _ _ Hsv). simpl.
  rewrite (count_present_alter _ _ _ Hch Hp). lia.
Qed.

Lemma total_present_flag_at svs p t :
  total_present (flag_at p t svs) = total_present svs.
Proof.
  unfold flag_at. destruct (svs !! p) as [sv|] eqn:Hsv.
  - rewrite (total_present_alter _ _ _ _ Hsv). simpl. lia.
  - f_equal. apply list_eq. intros k.
    destruct (decide (k = p)) as [->|Hne].
    + rewrite list_lookup_alter_eq, Hsv. done.
    + by rewrite list_lookup_alter_ne.
Qed.

Lemma source_step_wf n svs p :
  well_formed n svs →
  source_step p svs = Ok (svs, []) ∨
  ∃ q c : nat,
    (p < n)%nat ∧ (q < n)%nat ∧ (c < 16)%nat ∧ p ≠ q ∧
    pres svs p c = true ∧ pres svs q c = false ∧
    source_step p svs
    = Ok (flag_at p (Z.of_nat q) (mark_at q c svs),
          [mkTransfer (Z.of_nat p) (Z.of_nat q) (Z.of_nat c)]).
Proof.
  intros [Hlen Hwf]. unfold source_step.
  destruct (svs !! p) as [sp|] eqn:Hsp; [|by left].
  destruct (scan_targets sp 0 svs None NUM_CHUNKS) as [q|] eqn:Hscan;
    [|by left].
  destruct (scan_targets_Some _ _ _ _ _ _ Hscan)
    as [?|(_ & t & Ht & Hid & Hneed & Htx)]; [done|].
  rewrite Nat.sub_0_r in Ht. rewrite Ht.
  unfold has_needed_chunks in Hneed.
  rewrite (has_needed_first_needed 0) in Hneed.
  apply bool_decide_eq_true_1 in Hneed as [c Hc]. rewrite Hc.
  destruct (first_needed_Some _ _ _ _ Hc) as (_ & sc & tc & Hsc & Htc & Hp1 & Hp2).
  rewrite Nat.sub_0_r in Hsc, Htc.
  destruct (Hwf _ _ Hsp) as [Hidp Hlp]. destruct (Hwf _ _ Ht) as [Hidq Hlq].
  pose proof (lookup_lt_Some _ _ _ Hsp). pose proof (lookup_lt_Some _ _ _ Ht).
  pose proof (lookup_lt_Some _ _ _ Htc).
  right. exists q, c.
  split; [lia|]. split; [lia|]. split; [lia|].
  split; [intros ->; congruence|].
  split; [unfold pres; by rewrite Hsp, Hsc|].
  split; [unfold pres; by rewrite Ht, Htc|].
  rewrite Hidp, Hidq.
  rewrite (mark_present_nat _ _ _ _ Ht) by lia. simpl.
  rewrite set_transmitting_nat
    by (unfold mark_at; rewrite length_alter; lia).
  done.
Qed.

Lemma smart_pass_wf n avail svs :
  well_formed n svs →
  ∃ svs' log,
    smart_pass avail svs = Ok (svs', log) ∧ well_formed n svs' ∧
    total_present svs' = total_present svs + Z.of_nat (length log) ∧
    src <$> log `sublist_of` Z.of_nat <$> avail ∧
    Forall (delivered n svs') log.
Proof.
  revert svs. induction avail as [|p avail IH]; intros svs Hwf; simpl.
  - exists svs, []. split; [done|]. split; [done|]. split; [simpl; lia|].
    split; [apply sublist_nil_l | done].
  - destruct (source_step_wf n svs p Hwf)
      as [->|(q & c & Hp & Hq & Hc & Hpq & Hsrc & Htgt & ->)]; simpl.
    + destruct (IH svs Hwf) as (svs' & log & -> & Hwf' & Htot & Hsub & Hall).
      simpl. exists svs', log. split; [done|]. split; [done|].
      split; [done|]. split; [by apply sublist_cons | done].
    + set (svs1 := flag_at p (Z.of_nat q) (mark_at q c svs)).
      assert (well_formed n svs1) as Hwf1
        by (by apply well_formed_flag_at, well_formed_mark_at).
      destruct (IH svs1 Hwf1)
        as (svs' & log & Hpass & Hwf' & Htot & Hsub & Hall).
      rewrite Hpass. simpl. eexists _, _. split; [done|].
      split; [done|]. split; [|split].
      * rewrite Htot. unfold svs1.
        rewrite total_present_flag_at,
          (total_present_mark_at n) by done.
        cbn [length app]. lia.
      * rewrite !fmap_cons. cbn [src]. by apply sublist_skip.
      * cbn [app]. constructor; [|done].
        exists p, q, c. repeat split; try done.
        -- apply (smart_pass_mono _ _ _ _ Hpass). unfold svs1.
           rewrite pres_flag_at. by apply pres_mark_at_mono.
        -- apply (smart_pass_mono _ _ _ _ Hpass). unfold svs1.
           rewrite pres_flag_at.
           destruct Hwf as [Hlen Hwf].
           destruct (lookup_lt_is_Some_2 svs q) as [sv Hsv]; [lia|].
           destruct (Hwf _ _ Hsv) as [_ Hl].
           rewrite (pres_mark_at _ _ _ _ _ _ Hsv) by lia.
           rewrite bool_decide_eq_true_2 by done. apply orb_true_r.
Qed.

Lemma available_servers_sublist pos svs :
  available_servers pos svs `sublist_of` seq pos (length svs).
Proof.
  revert pos. induction svs as [|sv svs IH]; intros pos; simpl.
  - apply sublist_nil_l.
  - destruct (_ && _); [by apply sublist_skip | by apply sublist_cons].
Qed.

Lemma available_servers_elem p pos svs :
  p ∈ available_servers pos svs →
  (pos ≤ p)%nat ∧
  ∃ sv, svs !! (p - pos)%nat = Some sv ∧
        has_chunks sv = true ∧ is_transmitting sv = false.
Proof.
  revert pos. induction svs as [|sv svs IH]; intros pos; simpl.
  - by intros ?%elem_of_nil.
  - assert (p ∈ available_servers (S pos) svs →
            (pos ≤ p)%nat ∧
            ∃ sv', (sv :: svs) !! (p - pos)%nat = Some sv' ∧
                   has_chunks sv' = true ∧ is_transmitting sv' = false)
      as Hrec.
    { intros Hin. destruct (IH _ Hin) as (Hle & sv' & Hsv' & Hhas).
      split; [lia|]. exists sv'.
      replace (p - pos)%nat with (S (p - S pos)) by lia. done. }
    destruct (has_chunks sv && negb (is_transmitting sv)) eqn:Hav;
      [|apply Hrec].
    intros [Heq|Hin]%elem_of_cons; [|by apply Hrec]. subst p.
    split; [lia|]. exists sv.
    replace (pos - pos)%nat with 0%nat by lia.
    apply andb_true_iff in Hav as [Hhas Htx].
    apply negb_true_iff in Htx. done.
Qed.

(** X9: on any well-formed state (ids equal to positions, [NUM_CHUNKS]
    slots per server), whatever the presence bits and flags, the smart
    strategy raises nothing and keeps the state well-formed and the
    counters untouched.  Every transfer it makes is between two distinct
    servers of the population and moves a chunk that afterwards both the
    sender and the receiver hold. *)
Theorem smart_transfer_safe n s :
  well_formed n (servers s) →
  ∃ s' log,
    smart_transfer s = Ok (s', log) ∧
    well_formed n (servers s') ∧
    num_servers s' = num_servers s ∧ current_tick s' = current_tick s ∧
    Forall (delivered n (servers s')) log.
Proof.
  intros Hwf. unfold smart_transfer.
  destruct (smart_pass_wf n (available_servers 0 (servers s)) _ Hwf)
    as (svs' & log & -> & Hwf' & _ & _ & Hall).
  simpl. by eexists _, _.
Qed.

Lemma smart_transfer_safe_witness :
  ∃ s' log,
    smart_transfer (init 6) = Ok (s', log) ∧
    well_formed (Z.to_nat 6) (servers s') ∧
    num_servers s' = num_servers (init 6) ∧
    current_tick s' = current_tick (init 6) ∧
    Forall (delivered (Z.to_nat 6) (servers s')) log.
Proof. exact (smart_transfer_safe _ (init 6) (init_well_formed 6)). Defined.

(** X10: on any well-formed state no transfer of the smart strategy is
    wasted: the number of presence bits set grows by exactly the number of
    transfers made, and at most one transfer per server is made. *)
Theorem smart_transfer_no_waste n s s' log :
  well_formed n (servers s) → smart_transfer s = Ok (s', log) →
  total_present (servers s')
  = total_present (servers s) + Z.of_nat (length log) ∧
  (length log ≤ n)%nat.
Proof.
  intros Hwf. unfold smart_transfer.
  destruct (smart_pass_wf n (available_servers 0 (servers s)) _ Hwf)
    as (svs' & log' & -> & _ & Htot & Hsub & _).
  simpl. intros [= <- <-]. simpl. split; [done|].
  apply sublist_length in Hsub. rewrite !length_fmap in Hsub.
  pose proof (sublist_length _ _
                (available_servers_sublist 0 (servers s))) as Hav.
  rewrite length_seq in Hav. destruct Hwf as [Hlen _]. lia.
Qed.

Lemma smart_transfer_no_waste_witness :
  ∃ s' log,
    smart_transfer (init 6) = Ok (s', log) ∧
    total_present (servers s')
    = total_present (servers (init 6)) + Z.of_nat (length log) ∧
    (length log ≤ Z.to_nat 6)%nat.
Proof.
  eexists _, _. split; [vm_compute; reflexivity|].
  apply (smart_transfer_no_waste _ (init 6) _ _ (init_well_formed 6)).
  vm_compute; reflexivity.
Defined.

(** X11: on any well-formed state the senders of one smart pass are
    pairwise distinct, and each of them held at least one chunk and was
    idle when the pass began: a server that receives its first chunk during
    a tick does not send in that tick. *)
Theorem smart_sources_exclusive n s s' log :
  well_formed n (servers s) → smart_transfer s = Ok (s', log) →
  NoDup (src <$> log) ∧
  ∀ tr, tr ∈ log →
        ∃ (p : nat) sv, src tr = Z.of_nat p ∧ servers s !! p = Some sv ∧
                        has_chunks sv = true ∧ is_transmitting sv = false.
Proof.
  intros Hwf. unfold smart_transfer.
  destruct (smart_pass_wf n (available_servers 0 (servers s)) _ Hwf)
    as (svs' & log' & -> & _ & _ & Hsub & _).
  simpl. intros [= <- <-]. split.
  - eapply sublist_NoDup; [|done].
    apply (NoDup_fmap_2 _).
    eapply sublist_NoDup; [apply NoDup_seq|].
    apply available_servers_sublist.
  - intros tr Htr.
    assert (src tr ∈ Z.of_nat <$> available_servers 0 (servers s)) as Hin.
    { eapply elem_of_sublist; [|done]. by apply list_elem_of_fmap_2. }
    apply list_elem_of_fmap in Hin as (p & Hp & Hin).
    destruct (available_servers_elem _ _ _ Hin) as (_ & sv & Hsv & Hhas & Htx).
    rewrite Nat.sub_0_r in Hsv. by exists p, sv.
Qed.

Lemma smart_sources_exclusive_witness :
  ∃ s s' log,
    iter_tick 2 "smart" (init 6) = Ok s ∧
    smart_transfer s = Ok (s', log) ∧ length log = 2%nat ∧
    NoDup (src <$> log).
Proof.
  eexists _, _, _. split; [vm_compute; reflexivity|].
  split; [vm_compute; reflexivity|]. split; [reflexivity|].
  assert (2 ≤ 6) as H by lia.
  refine (proj1 (smart_sources_exclusive (Z.to_nat 6) _ _ _
                   (proj1 (proj2 (smart_reachable 6 H "smart" _ eq_refl _)))
                   _)).
  - run_ticks 2%nat.
  - vm_compute; reflexivity.
Defined.

(** ** The selection policy of one sender *)

Lemma has_needed_complete source t :
  forallb present (chunks t) = true → has_needed_chunks source t = false.
Proof.
  unfold has_needed_chunks. generalize (chunks source) as scs.
  induction (chunks t) as [|tc tcs IH]; intros [|sc scs] Hall; simpl;
    try done.
  simpl in Hall. apply andb_true_iff in Hall as [Htc Hall].
  unfold needed at 1. simpl. rewrite Htc, andb_false_r. simpl. by apply IH.
Qed.

Lemma has_needed_at scs tcs c sc tc :
  scs !! c = Some sc → tcs !! c = Some tc →
  present sc = true → present tc = false →
  existsb needed (zip scs tcs) = true.
Proof.
  revert tcs c. induction scs as [|sc0 scs IH]; intros [|tc0 tcs] [|c];
    simpl; try done.
  - intros [= ->] [= ->] Hs Ht. unfold needed. simpl. by rewrite Hs, Ht.
  - intros Hs Ht Hps Hpt. rewrite (IH _ _ Hs Ht Hps Hpt).
    apply orb_true_r.
Qed.

Lemma first_needed_first i scs tcs c j sc tc :
  first_needed i scs tcs = Some c → (j < c - i)%nat →
  scs !! j = Some sc → tcs !! j = Some tc →
  needed (sc, tc) = false.
Proof.
  revert i tcs j. induction scs as [|sc0 scs IH]; intros i [|tc0 tcs] j;
    simpl; try done.
  destruct (needed (sc0, tc0)) eqn:Hneed.
  - intros [= <-] Hj. lia.
  - intros Hrec Hj. destruct j as [|j]; simpl.
    + by intros [= <-] [= <-].
    + apply (IH _ _ _ Hrec). lia.
Qed.

Lemma scan_targets_spec source pos rest best least q :
  scan_targets source pos rest best least = Some q →
  (best = Some q ∧
   ∀ i t, rest !! i = Some t → eligible source t →
          least ≤ count_present (chunks t)) ∨
  ((pos ≤ q)%nat ∧
   ∃ t, rest !! (q - pos)%nat = Some t ∧ eligible source t ∧
        count_present (chunks t) < least ∧
        ∀ i t', rest !! i = Some t' → eligible source t' →
                ((i < q - pos)%nat →
                 count_present (chunks t) < count_present (chunks t')) ∧
                count_present (chunks t) ≤ count_present (chunks t')).
Proof.
  revert pos best least.
  induction rest as [|t0 rest IH]; intros pos best least; simpl.
  { intros ->. left. split; [done|]. intros i t Hi. by destruct i. }
  assert (∀ best' least',
    least' ≤ least →
    (eligible source t0 → least' ≤ count_present (chunks t0)) →
    (best' = Some q → least' = least → best = Some q) →
    (best' = Some q → least' < least →
     (pos = q ∧ eligible source t0 ∧ count_present (chunks t0) = least')) →
    scan_targets source (S pos) rest best' least' = Some q →
    (best = Some q ∧
     ∀ i t, (t0 :: rest) !! i = Some t → eligible source t →
            least ≤ count_present (chunks t)) ∨
    ((pos ≤ q)%nat ∧
     ∃ t, (t0 :: rest) !! (q - pos)%nat = Some t ∧ eligible source t ∧
          count_present (chunks t) < least ∧
          ∀ i t', (t0 :: rest) !! i = Some t' → eligible source t' →
                  ((i < q - pos)%nat →
                   count_present (chunks t) < count_present (chunks t')) ∧
                  count_present (chunks t) ≤ count_present (chunks t')))
    as Hrec.
  { intros best' least' Hle Ht0 Hsame Hnew Hscan.
    destruct (IH _ _ _ Hscan)
      as [[Hbest Hrest]|(Hpos & t & Ht & Hel & Hlt & Hmin)].
    - destruct (decide (least' = least)) as [Heq|Hne].
      + left. split; [by apply Hsame|].
        intros [|i] t'; simpl.
        * intros [= <-] Hel. specialize (Ht0 Hel). lia.
        * intros Hi Hel. specialize (Hrest _ _ Hi Hel). lia.
      + destruct (Hnew Hbest ltac:(lia)) as (-> & Hel0 & Hcount).
        right. split; [lia|]. exists t0.
        replace (q - q)%nat with 0%nat by lia.
        split; [done|]. split; [done|]. split; [lia|].
        intros [|i] t'; simpl.
        * intros [= <-] _. split; [lia|lia].
        * intros Hi Hel. specialize (Hrest _ _ Hi Hel). split; [lia|lia].
    - right. split; [lia|]. exists t.
      replace (q - pos)%nat with (S (q - S pos)) by lia.
      split; [done|]. split; [done|]. split; [lia|].
      intros [|i] t'; simpl.
      + intros [= <-] Hel0. specialize (Ht0 Hel0). split; lia.
      + intros Hi Hel'. destruct (Hmin _ _ Hi Hel') as [Hb Ha].
        split; [intros ?; apply Hb; lia|done]. }
  case_bool_decide as Hid.
  { apply Hrec; try done; try lia. by intros (? & _). }
  destruct (has_needed_chunks source t0) eqn:Hneed; simpl.
  2:{ apply Hrec; try done; try lia. intros (_ & ? & _). congruence. }
  destruct (Z.ltb_spec (count_present (chunks t0)) least) as [Hlt|Hge];
    simpl.
  2:{ apply Hrec; try done; try lia. }
  destruct (is_transmitting t0) eqn:Htx; simpl.
  { apply Hrec; try done; try lia. intros (_ & _ & ?). congruence. }
  apply Hrec.
  - lia.
  - intros _. lia.
  - intros _ ?. lia.
  - intros [= ->] _. done.
Qed.

Lemma count_present_bound cs :
  0 ≤ count_present cs ≤ Z.of_nat (length cs).
Proof.
  induction cs as [|ch cs IH]; simpl; [lia|]. destruct (present ch); lia.
Qed.

Lemma count_present_lacking cs c ch :
  cs !! c = Some ch → present ch = false →
  count_present cs < Z.of_nat (length cs).
Proof.
  revert c. induction cs as [|ch0 cs IH]; intros [|c]; simpl; try done.
  - intros [= ->] ->. pose proof (count_present_bound cs). lia.
  - intros Hc Hp. specialize (IH _ Hc Hp). destruct (present ch0); lia.
Qed.

Lemma scan_targets_found source pos rest q least :
  ∃ q', scan_targets source pos rest (Some q) least = Some q'.
Proof.
  revert pos q least. induction rest as [|t rest IH]; intros pos q least;
    simpl; [by eexists|].
  case_bool_decide; [apply IH|]. destruct (_ && _); apply IH.
Qed.

Lemma scan_targets_None source pos rest least :
  scan_targets source pos rest None least = None →
  ∀ i t, rest !! i = Some t → eligible source t →
         least ≤ count_present (chunks t).
Proof.
  revert pos. induction rest as [|t0 rest IH]; intros pos; simpl.
  { intros _ i t Hi. by destruct i. }
  assert (scan_targets source (S pos) rest None least = None →
          (eligible source t0 → least ≤ count_present (chunks t0)) →
          ∀ i t, (t0 :: rest) !! i = Some t → eligible source t →
                 least ≤ count_present (chunks t)) as Hrec.
  { intros Hscan Ht0 [|i] t; simpl.
    - by intros [= <-].
    - by apply (IH _ Hscan). }
  case_bool_decide as Hid.
  { intros Hscan. apply Hrec; [done|]. by intros (? & _). }
  destruct (has_needed_chunks source t0) eqn:Hneed; simpl.
  2:{ intros Hscan. apply Hrec; [done|]. intros (_ & ? & _). congruence. }
  destruct (Z.ltb_spec (count_present (chunks t0)) least) as [Hlt|Hge];
    simpl.
  2:{ intros Hscan. by apply Hrec. }
  destruct (is_transmitting t0) eqn:Htx; simpl.
  { intros Hscan. apply Hrec; [done|]. intros (_ & _ & ?). congruence. }
  intros Hscan.
  destruct (scan_targets_found source (S pos) rest pos
              (count_present (chunks t0))) as [q' Hq'].
  congruence.
Qed.

Section candidates.
Context {n : nat} {svs : list Server}.
Hypothesis Hwf : well_formed n svs.

Lemma eligible_candidate p sp i t :
  svs !! p = Some sp → svs !! i = Some t →
  eligible sp t ↔ candidate svs p i.
Proof.
  intros Hsp Ht. destruct Hwf as [Hlen Hshape].
  destruct (Hshape _ _ Hsp) as [Hidp Hlp].
  destruct (Hshape _ _ Ht) as [Hidi Hli].
  unfold eligible, candidate, busy, has_needed_chunks. rewrite Ht.
  split.
  - intros (Hid & Hneed & Htx).
    split; [intros ->; congruence|]. split; [done|].
    rewrite (has_needed_first_needed 0) in Hneed.
    apply bool_decide_eq_true_1 in Hneed as [c Hc].
    destruct (first_needed_Some _ _ _ _ Hc)
      as (_ & sc & tc & Hsc & Htc & Hp1 & Hp2).
    rewrite Nat.sub_0_r in Hsc, Htc.
    exists c. unfold pres. rewrite Hsp, Ht, Hsc, Htc.
    split; [done|]. split; [done|].
    apply lookup_lt_Some in Htc. apply lookup_lt_Some in Ht. lia.
  - intros (Hne & Htx & c & Hpc & Hic & Hc & Hi).
    split; [rewrite Hidp, Hidi; lia|]. split; [|done].
    unfold pres in Hpc, Hic. rewrite Hsp in Hpc. rewrite Ht in Hic.
    destruct (chunks sp !! c) as [sc|] eqn:Hsc; [|done].
    destruct (lookup_lt_is_Some_2 (chunks t) c) as [tc Htc]; [lia|].
    rewrite Htc in Hic. by eapply has_needed_at.
Qed.

Lemma held_lookup i t : svs !! i = Some t → held svs i = count_present (chunks t).
Proof. intros Ht. unfold held. by rewrite Ht. Qed.
End candidates.

(** X12: the selection policy of one sender's turn, on any well-formed
    state.  When the sender at position [p] makes a transfer, the receiver
    [q] is a candidate (another server, idle, lacking a chunk [p] holds);
    no candidate holds fewer chunks than [q] and every candidate before [q]
    holds strictly more, so ties go to the lowest position; the chunk sent
    is the lowest one that [p] holds and [q] lacks; and the only changes
    are that bit of [q] and the flags of [p]. *)
Theorem source_step_policy n svs p svs' tr :
  well_formed n svs → source_step p svs = Ok (svs', [tr]) →
  ∃ q c : nat,
    tr = mkTransfer (Z.of_nat p) (Z.of_nat q) (Z.of_nat c) ∧
    svs' = flag_at p (Z.of_nat q) (mark_at q c svs) ∧
    candidate svs p q ∧
    (∀ i, candidate svs p i →
          held svs q ≤ held svs i ∧
          ((i < q)%nat → held svs q < held svs i)) ∧
    pres svs p c = true ∧ pres svs q c = false ∧
    (∀ c', (c' < c)%nat → pres svs p c' = true → pres svs q c' = true).
Proof.
  intros Hwf. pose proof Hwf as [Hlen Hshape]. unfold source_step.
  destruct (svs !! p) as [sp|] eqn:Hsp; [|done].
  destruct (scan_targets sp 0 svs None NUM_CHUNKS) as [q|] eqn:Hscan;
    [|done].
  destruct (scan_targets_spec _ _ _ _ _ _ Hscan)
    as [[? _]|(_ & t & Ht & Hel & _ & Hmin)]; [done|].
  rewrite Nat.sub_0_r in Ht, Hmin. rewrite Ht.
  destruct (first_needed 0 (chunks sp) (chunks t)) as [c|] eqn:Hc; [|done].
  destruct (first_needed_Some _ _ _ _ Hc)
    as (_ & sc & tc & Hsc & Htc & Hp1 & Hp2).
  rewrite Nat.sub_0_r in Hsc, Htc.
  destruct (Hshape _ _ Hsp) as [Hidp Hlp].
  destruct (Hshape _ _ Ht) as [Hidq Hlq].
  pose proof (lookup_lt_Some _ _ _ Hsp). pose proof (lookup_lt_Some _ _ _ Ht).
  pose proof (lookup_lt_Some _ _ _ Htc).
  rewrite Hidp, Hidq.
  rewrite (mark_present_nat _ _ _ _ Ht) by lia. simpl.
  rewrite set_transmitting_nat
    by (unfold mark_at; rewrite length_alter; lia).
  simpl. intros [= <- <-]. exists q, c.
  split; [done|]. split; [done|].
  split; [by apply (eligible_candidate Hwf p sp q t)|].
  split; [|split; [|split]].
  - intros i Hcand.
    destruct (lookup_lt_is_Some_2 svs i) as [ti Hti].
    { by destruct Hcand as (_ & _ & _ & _ & _ & _ & ?). }
    apply (eligible_candidate Hwf p sp i ti Hsp Hti) in Hcand.
    rewrite (held_lookup q t Ht), (held_lookup i ti Hti).
    destruct (Hmin _ _ Hti Hcand) as [Hb Ha]. done.
  - unfold pres. by rewrite Hsp, Hsc.
  - unfold pres. by rewrite Ht, Htc.
  - intros c' Hc' Hpc'. unfold pres in *. rewrite Hsp in Hpc'. rewrite Ht.
    destruct (chunks sp !! c') as [sc'|] eqn:Hsc'; [|done].
    destruct (lookup_lt_is_Some_2 (chunks t) c') as [tc' Htc']; [lia|].
    rewrite Htc'.
    pose proof (first_needed_first 0 _ _ c c' sc' tc' Hc ltac:(lia) Hsc' Htc')
      as Hnot.
    unfold needed in Hnot. simpl in Hnot. rewrite Hpc' in Hnot. simpl in Hnot.
    by apply negb_false_iff in Hnot.
Qed.

Lemma source_step_policy_witness :
  ∃ q c : nat,
    mkTransfer 0 2 0
    = mkTransfer (Z.of_nat 0) (Z.of_nat q) (Z.of_nat c) ∧
    candidate (servers uneven_state) 0 q ∧
    (∀ i, candidate (servers uneven_state) 0 i →
          held (servers uneven_state) q ≤ held (servers uneven_state) i ∧
          ((i < q)%nat →
           held (servers uneven_state) q < held (servers uneven_state) i)).
Proof.
  assert (well_formed 3 (servers uneven_state)) as Hwf.
  { apply well_formed_mark_at, well_formed_mark_at, (init_well_formed 3). }
  destruct (source_step_policy 3 (servers uneven_state) 0 _ _ Hwf
              ltac:(vm_compute; reflexivity))
    as (q & c & Htr & _ & Hcand & Hmin & _).
  exists q, c. split; [exact Htr|]. split; [exact Hcand | exact Hmin].
Defined.

(** X13: on any well-formed state a sender that has a candidate makes a
    transfer: its turn is idle only when no other idle server lacks one of
    its chunks. *)
Theorem source_step_progress n svs p i :
  well_formed n svs → (p < n)%nat → candidate svs p i →
  ∃ svs' tr, source_step p svs = Ok (svs', [tr]).
Proof.
  intros Hwf Hp Hcand. pose proof Hwf as [Hlen Hshape].
  destruct (lookup_lt_is_Some_2 svs p) as [sp Hsp]; [lia|].
  destruct (lookup_lt_is_Some_2 svs i) as [ti Hti].
  { by destruct Hcand as (_ & _ & _ & _ & _ & _ & ?). }
  destruct (source_step_wf n svs p Hwf)
    as [Hidle|(q & c & _ & _ & _ & _ & _ & _ & ->)]; [|by eexists _, _].
  exfalso. unfold source_step in Hidle. rewrite Hsp in Hidle.
  destruct (scan_targets sp 0 svs None NUM_CHUNKS) as [q|] eqn:Hscan.
  - destruct (scan_targets_Some _ _ _ _ _ _ Hscan)
      as [?|(_ & t & Ht & Hid & Hneed & Htx)]; [done|].
    rewrite Nat.sub_0_r in Ht. rewrite Ht in Hidle.
    unfold has_needed_chunks in Hneed.
    rewrite (has_needed_first_needed 0) in Hneed.
    apply bool_decide_eq_true_1 in Hneed as [c Hc]. rewrite Hc in Hidle.
    destruct (first_needed_Some _ _ _ _ Hc) as (_ & sc & tc & _ & Htc & _).
    rewrite Nat.sub_0_r in Htc.
    destruct (Hshape _ _ Hsp) as [Hidp _].
    destruct (Hshape _ _ Ht) as [Hidq Hlq].
    pose proof (lookup_lt_Some _ _ _ Ht). pose proof (lookup_lt_Some _ _ _ Htc).
    rewrite Hidp, Hidq in Hidle.
    rewrite (mark_present_nat _ _ _ _ Ht) in Hidle by lia. simpl in Hidle.
    rewrite set_transmitting_nat in Hidle
      by (unfold mark_at; rewrite length_alter; lia).
    simpl in Hidle. done.
  - pose proof (proj2 (eligible_candidate Hwf p sp i ti Hsp Hti) Hcand) as Hel.
    pose proof (scan_targets_None _ _ _ _ Hscan _ _ Hti Hel) as Hfull.
    destruct (proj1 (eligible_candidate Hwf p sp i ti Hsp Hti) Hel)
      as (_ & _ & c & _ & Hic & Hc & _).
    destruct (Hshape _ _ Hti) as [_ Hli].
    destruct (lookup_lt_is_Some_2 (chunks ti) c) as [tc Htc]; [lia|].
    unfold pres in Hic. rewrite Hti, Htc in Hic.
    pose proof (count_present_lacking _ _ _ Htc Hic).
    unfold NUM_CHUNKS in Hfull. lia.
Qed.

Lemma source_step_progress_witness :
  ∃ svs' tr, source_step 1 (servers uneven_state) = Ok (svs', [tr]).
Proof.
  assert (well_formed 3 (servers uneven_state)) as Hwf.
  { apply well_formed_mark_at, well_formed_mark_at, (init_well_formed 3). }
  apply (source_step_progress 3 _ 1 2 Hwf); [lia|].
  split; [lia|]. split; [reflexivity|].
  exists 0%nat. split; [reflexivity|]. split; [reflexivity|].
  split; [lia | vm_compute; lia].
Defined.

(** X14: on a complete state the smart strategy makes no transfer, raises
    nothing and leaves the state as it is, whatever the flags. *)
Theorem smart_transfer_complete s :
  is_complete s = true → smart_transfer s = Ok (s, []).
Proof.
  intros Hcomp. unfold is_complete in Hcomp.
  rewrite forallb_forall in Hcomp.
  assert (∀ p, source_step p (servers s) = Ok (servers s, [])) as Hstep.
  { intros p. unfold source_step.
    destruct (servers s !! p) as [sp|]; [|done].
    rewrite scan_targets_keep; [done|].
    intros t Hin (_ & Hneed & _).
    rewrite has_needed_complete in Hneed; [done|].
    by apply Hcomp, list_elem_of_In. }
  assert (∀ avail, smart_pass avail (servers s) = Ok (servers s, []))
    as Hpass.
  { induction avail as [|p avail IH]; simpl; [done|].
    rewrite Hstep. simpl. by rewrite IH. }
  unfold smart_transfer. rewrite Hpass. simpl. by destruct s.
Qed.

Lemma smart_transfer_complete_witness :
  smart_transfer (init 1) = Ok (init 1, []).
Proof. apply (smart_transfer_complete (init 1)). reflexivity. Defined.

(** X15: that a server receives at most one chunk per tick is a property
    of the states a run visits, not of the selection loop: on the
    well-formed three-server state in which server 1 already holds chunks 0
    and 1 and server 2 nothing, with every flag clear, one smart pass sends
    chunk 0 from server 0 and chunk 1 from server 1 both to server 2. *)
Theorem fan_in_on_uneven_state :
  well_formed 3 (servers uneven_state) ∧
  (∀ i, busy (servers uneven_state) i = false) ∧
  ∃ s',
    smart_transfer uneven_state
    = Ok (s', [mkTransfer 0 2 0; mkTransfer 1 2 1]) ∧
    ¬ NoDup (tgt <$> [mkTransfer 0 2 0; mkTransfer 1 2 1]) ∧
    ∀ alg, ¬ reachable alg 3 uneven_state.
Proof.
  split.
  { apply well_formed_mark_at, well_formed_mark_at, (init_well_formed 3). }
  split.
  { intros i. unfold uneven_state. cbn [servers].
    by rewrite !busy_mark_at, init_busy. }
  eexists. split; [vm_compute; reflexivity|]. split.
  - intros Hnd. simpl in Hnd. inversion Hnd as [|? ? Hnin _].
    apply Hnin. constructor.
  - intros alg Hreach.
    assert (is_complete uneven_state = false) as Hcomp by reflexivity.
    destruct (String.eqb alg "naive") eqn:Halg.
    + apply String.eqb_eq in Halg as ->.
      pose proof (naive_reachable 3 ltac:(lia) _ Hreach)
        as (_ & _ & _ & Hpres).
      specialize (Hpres 1%nat 1%nat ltac:(lia) ltac:(lia)).
      vm_compute in Hpres. done.
    + pose proof (smart_reachable 3 ltac:(lia) alg _ Halg Hreach)
        as [_ (_ & _ & Hpres & _)].
      specialize (Hpres 1%nat 1%nat ltac:(lia) ltac:(lia)).
      vm_compute in Hpres. done.
Qed.
